(** * todolist.py: a command-line to-do list over one SQLite table

    A shallow embedding of [src/todolist.py].  The [tasks] table is a
    list of rows in rowid order together with the AUTOINCREMENT counter
    SQLite keeps in [sqlite_sequence]; every function of the script is a
    function from the database before the call to the database after it,
    the lines it prints and the exception that escapes it, if any.

    Outside the model: failures of the storage itself (the file cannot
    be opened or written), and input that is not ASCII. *)

From Stdlib Require Import ZArith String Ascii.
From stdpp Require Import base decidable numbers list sorting strings pretty.

Local Open Scope Z_scope.
Local Open Scope string_scope.
Local Open Scope list_scope.

(** ** The table

    [CREATE TABLE tasks (id INTEGER PRIMARY KEY AUTOINCREMENT,
    description TEXT NOT NULL, status TEXT NOT NULL DEFAULT 'pending',
    created_at TIMESTAMP DEFAULT CURRENT_TIMESTAMP)].

    [status] is a TEXT column, so it is a string here and not an
    enumeration.  [created_at] holds CURRENT_TIMESTAMP, the UTC time
    'YYYY-MM-DD HH:MM:SS' with a resolution of one second; the texts of
    that shape compare like the instants they denote, so a timestamp is
    the number of seconds it stands for. *)

Record Task := mkTask {
  id : Z;
  description : string;
  status : string;
  created_at : Z
}.

#[global] Instance Task_eq_dec : EqDecision Task.
Proof. solve_decision. Defined.

(** The rows in rowid order (the order of a table scan) and the largest
    rowid handed out so far, as recorded in [sqlite_sequence]. *)
Record Store := mkStore {
  rows : list Task;
  seq : Z
}.

(** Rowids, and the integers SQLite can bind to a parameter, are signed
    64-bit. *)
Definition MAX_ROWID : Z := 9223372036854775807.
Definition MIN_ROWID : Z := -9223372036854775808.

Definition fits_int64 (n : Z) : Prop := MIN_ROWID <= n <= MAX_ROWID.

#[global] Instance fits_int64_dec n : Decision (fits_int64 n).
Proof. unfold fits_int64. apply _. Defined.

Definition ids (st : Store) : list Z := id <$> rows st.

(** Every rowid of a table is a signed 64-bit integer. *)
Definition table_state (st : Store) : Prop := Forall fits_int64 (ids st).

(** ** What the script prints and raises *)

Inductive Msg :=
| Welcome
| TaskAdded (description : string) (lastrowid : Z)
| DatabaseError
| NoTasksWithStatus (status_filter : string)
| NoTasks
| ToDoList (tasks : list Task)
| InvalidStatus (new_status : string)
| TaskNotFound (task_id : Z)
| MarkedAs (task_id : Z) (new_status : string)
| AlreadyOrNotFound (task_id : Z) (new_status : string)
| DeletedSuccessfully (task_id : Z)
| NotFoundDuringDeletion (task_id : Z)
| Goodbye
| ProvideDescription
| FilterNotAllowed (filter_arg : string)
| IdMustBeNumber (arg command : string)
| ProvideTaskId (command : string)
| UnknownCommand (command : string).

#[global] Instance Msg_eq_dec : EqDecision Msg.
Proof. solve_decision. Defined.

(** The exceptions no handler of the script names: binding a Python
    integer outside the 64-bit range to a statement parameter raises
    [OverflowError], which is not an [sqlite3.Error]; [input()] raises
    [EOFError] when standard input is exhausted. *)
Inductive Exn := OverflowError | EOFError.

#[global] Instance Exn_eq_dec : EqDecision Exn.
Proof. solve_decision. Defined.

(** The effect of one call. *)
Record Effect := mkEffect {
  db : Store;
  printed : list Msg;
  raised : option Exn
}.

(** ** [initialize_database]: CREATE TABLE IF NOT EXISTS

    [None] is a database file without the table. *)
Definition empty_db : Store := mkStore [] 0.

Definition initialize_database (file : option Store) : Store :=
  match file with
  | Some st => st
  | None => empty_db
  end.

(** ** The statements *)

Definition max_rowid (l : list Task) : Z :=
  foldr (fun t m => Z.max (id t) m) 0 l.

(** AUTOINCREMENT: one more than the largest rowid the table has ever
    held. *)
Definition next_rowid (st : Store) : Z :=
  Z.max (seq st) (max_rowid (rows st)) + 1.

(** [INSERT INTO tasks (description) VALUES (?)]: [status] and
    [created_at] take their defaults.  [None] is SQLITE_FULL, raised
    when the largest rowid has been used. *)
Definition insert_task (description : string) (now : Z) (st : Store)
  : option (Store * Z) :=
  let r := next_rowid st in
  if decide (r <= MAX_ROWID)
  then Some (mkStore (rows st ++ [mkTask r description "pending" now]) r, r)
  else None.

(** [SELECT id FROM tasks WHERE id = ?] and [fetchone()]. *)
Definition select_id (task_id : Z) (st : Store) : option Z :=
  head (filter (fun i => i = task_id) (ids st)).

Definition set_status (new_status : string) (t : Task) : Task :=
  mkTask (id t) (description t) new_status (created_at t).

(** [UPDATE tasks SET status = ? WHERE id = ?], with [rowcount]: SQLite
    counts every row the WHERE clause selects, changed or not. *)
Definition update_status (new_status : string) (task_id : Z) (st : Store)
  : Store * Z :=
  (mkStore
     ((fun t => if decide (id t = task_id)
                then set_status new_status t else t) <$> rows st)
     (seq st),
   Z.of_nat (length (filter (fun t => id t = task_id) (rows st)))).

(** [DELETE FROM tasks WHERE id = ?], with [rowcount].  The counter in
    [sqlite_sequence] stays. *)
Definition delete_row (task_id : Z) (st : Store) : Store * Z :=
  (mkStore (filter (fun t => id t <> task_id) (rows st)) (seq st),
   Z.of_nat (length (filter (fun t => id t = task_id) (rows st)))).

(** [ORDER BY created_at DESC].  SQL leaves the order of rows of equal
    [created_at] open ([query_result] below says what it promises); here
    such rows stay in scan order, and no property of a listing proved
    below depends on that choice. *)
Fixpoint insert_desc (t : Task) (l : list Task) : list Task :=
  match l with
  | [] => [t]
  | u :: l' =>
      if decide (created_at u <= created_at t)
      then t :: u :: l'
      else u :: insert_desc t l'
  end.

Definition order_by_created_at_desc (l : list Task) : list Task :=
  foldr insert_desc [] l.

(** Python's truth value of [status_filter]: [None] and the empty string
    are false. *)
Definition filter_given (status_filter : option string) : option string :=
  match status_filter with
  | Some s => if decide (s = "") then None else Some s
  | None => None
  end.

(** The WHERE clause [view_tasks] builds. *)
Definition where_status (status_filter : option string) (l : list Task)
  : list Task :=
  match filter_given status_filter with
  | Some s => filter (fun t => status t = s) l
  | None => l
  end.

(** The query of [view_tasks] and [fetchall()]. *)
Definition fetch_tasks (status_filter : option string) (st : Store)
  : list Task :=
  order_by_created_at_desc (where_status status_filter (rows st)).

(** ** The functions of the script *)

Definition add_task (description : string) (now : Z) (st : Store) : Effect :=
  match insert_task description now st with
  | Some (st', lastrowid) => mkEffect st' [TaskAdded description lastrowid] None
  | None => mkEffect st [DatabaseError] None
  end.

Definition view_tasks (status_filter : option string) (st : Store) : Effect :=
  let tasks := fetch_tasks status_filter st in
  match tasks with
  | [] =>
      match filter_given status_filter with
      | Some s => mkEffect st [NoTasksWithStatus s] None
      | None => mkEffect st [NoTasks] None
      end
  | _ => mkEffect st [ToDoList tasks] None
  end.

Definition valid_status (s : string) : Prop := s = "pending" \/ s = "completed".

#[global] Instance valid_status_dec s : Decision (valid_status s).
Proof. unfold valid_status. apply _. Defined.

Definition update_task_status (task_id : Z) (new_status : string) (st : Store)
  : Effect :=
  if decide (valid_status new_status) then
    if decide (fits_int64 task_id) then
      match select_id task_id st with
      | None => mkEffect st [TaskNotFound task_id] None
      | Some _ =>
          let '(st', rowcount) := update_status new_status task_id st in
          if decide (rowcount > 0)
          then mkEffect st' [MarkedAs task_id new_status] None
          else mkEffect st' [AlreadyOrNotFound task_id new_status] None
      end
    else mkEffect st [] (Some OverflowError)
  else mkEffect st [InvalidStatus new_status] None.

Definition delete_task (task_id : Z) (st : Store) : Effect :=
  if decide (fits_int64 task_id) then
    match select_id task_id st with
    | None => mkEffect st [TaskNotFound task_id] None
    | Some _ =>
        let '(st', rowcount) := delete_row task_id st in
        if decide (rowcount > 0)
        then mkEffect st' [DeletedSuccessfully task_id] None
        else mkEffect st' [NotFoundDuringDeletion task_id] None
    end
  else mkEffect st [] (Some OverflowError).

(** Any sequence of calls of the four functions, on one database file;
    a call that raises leaves the file as it is, and a later session
    goes on from there. *)
Inductive Call :=
| AddTask (description : string) (now : Z)
| ViewTasks (status_filter : option string)
| UpdateTaskStatus (task_id : Z) (new_status : string)
| DeleteTask (task_id : Z).

Definition call (c : Call) (st : Store) : Effect :=
  match c with
  | AddTask description now => add_task description now st
  | ViewTasks status_filter => view_tasks status_filter st
  | UpdateTaskStatus task_id new_status => update_task_status task_id new_status st
  | DeleteTask task_id => delete_task task_id st
  end.

(** The database after the calls and everything they printed, oldest
    call first. *)
Definition calls (cs : list Call) (st : Store) : Store * list Msg :=
  foldl (fun '(s, out) c => let e := call c s in (db e, out ++ printed e))
        (st, []) cs.

(** The ids the session reported as added and as deleted, in the order
    of the reports. *)
Definition added_ids (out : list Msg) : list Z :=
  omap (fun m => match m with TaskAdded _ i => Some i | _ => None end) out.

Definition deleted_ids (out : list Msg) : list Z :=
  omap (fun m => match m with DeletedSuccessfully i => Some i | _ => None end) out.

(** ** Strings: what [main] does to a line

    Python's text is Unicode; the functions below are [str.strip],
    [str.lower], [str.split] and [int] on text whose characters are all
    ASCII ([is_ascii]), which is the domain of every property that
    reads a line.  On a byte above 127 they say nothing about Python:
    [str.lower] knows letters outside A-Z, [str.strip] and [str.split]
    white space outside ASCII, [int] digits outside 0-9.

    White space for [str.strip] and [str.split]: tab, line feed,
    vertical tab, form feed, carriage return, the four separators 28 to
    31 and the space. *)

Definition is_ascii_char (c : ascii) : bool := (N_of_ascii c <? 128)%N.

Definition is_space (c : ascii) : bool :=
  let n := N_of_ascii c in
  ((9 <=? n) && (n <=? 13) || (28 <=? n) && (n <=? 32))%N.

Definition lower_char (c : ascii) : ascii :=
  let n := N_of_ascii c in
  if ((65 <=? n) && (n <=? 90))%N then ascii_of_N (n + 32) else c.

(** [str.lower], on ASCII text: A to Z become a to z. *)
Fixpoint lower (s : string) : string :=
  match s with
  | EmptyString => EmptyString
  | String c s' => String (lower_char c) (lower s')
  end.

Fixpoint lstrip (s : string) : string :=
  match s with
  | EmptyString => EmptyString
  | String c s' => if is_space c then lstrip s' else s
  end.

Fixpoint rstrip (s : string) : string :=
  match s with
  | EmptyString => EmptyString
  | String c s' =>
      match rstrip s' with
      | EmptyString => if is_space c then EmptyString else String c EmptyString
      | r => String c r
      end
  end.

(** [str.strip], on ASCII text. *)
Definition strip (s : string) : string := rstrip (lstrip s).

(** The first run of characters that are not white space, and what
    follows it. *)
Fixpoint word (s : string) : string * string :=
  match s with
  | EmptyString => (EmptyString, EmptyString)
  | String c s' =>
      if is_space c then (EmptyString, s)
      else let '(w, r) := word s' in (String c w, r)
  end.

(** [str.split(maxsplit=1)], on ASCII text: no part, the one word, or
    the first word and the rest of the line from its next word on. *)
Definition split1 (s : string) : list string :=
  match lstrip s with
  | EmptyString => []
  | s1 =>
      let '(w, r) := word s1 in
      match lstrip r with
      | EmptyString => [w]
      | rest => [w; rest]
      end
  end.

Definition digit (c : ascii) : option Z :=
  let n := N_of_ascii c in
  if ((48 <=? n) && (n <=? 57))%N then Some (Z.of_N n - 48) else None.

(** The digits after a first digit, single underscores allowed between
    two digits. *)
Fixpoint digits (s : string) (acc : Z) : option Z :=
  match s with
  | EmptyString => Some acc
  | String c s' =>
      match digit c with
      | Some d => digits s' (10 * acc + d)
      | None =>
          if decide (c = "_"%char) then
            match s' with
            | String c' s'' =>
                match digit c' with
                | Some d => digits s'' (10 * acc + d)
                | None => None
                end
            | EmptyString => None
            end
          else None
      end
  end.

Definition unsigned (s : string) : option Z :=
  match s with
  | String c s' =>
      match digit c with
      | Some d => digits s' d
      | None => None
      end
  | EmptyString => None
  end.

(** White space for [int]: the six characters of C's [isspace].  The
    separators 28 to 31, which [str.strip] removes, are not among
    them. *)
Definition is_c_space (c : ascii) : bool :=
  let n := N_of_ascii c in
  ((9 <=? n) && (n <=? 13) || (n =? 32))%N.

Fixpoint lskip (s : string) : string :=
  match s with
  | EmptyString => EmptyString
  | String c s' => if is_c_space c then lskip s' else s
  end.

Fixpoint rskip (s : string) : string :=
  match s with
  | EmptyString => EmptyString
  | String c s' =>
      match rskip s' with
      | EmptyString => if is_c_space c then EmptyString else String c EmptyString
      | r => String c r
      end
  end.

(** The number of digit characters: what the limit of [int] counts.
    Leading zeros count, the sign and the underscores do not. *)
Fixpoint digit_count (s : string) : Z :=
  match s with
  | EmptyString => 0
  | String c s' =>
      match digit c with
      | Some _ => 1 + digit_count s'
      | None => digit_count s'
      end
  end.

(** [sys.get_int_max_str_digits()], as CPython 3.11 sets it. *)
Definition MAX_STR_DIGITS : Z := 4300.

(** [int(s)] in base ten; [None] is [ValueError], which a text of more
    than 4300 digits raises as well. *)
Definition int (s : string) : option Z :=
  let literal := rskip (lskip s) in
  if decide (digit_count literal <= MAX_STR_DIGITS) then
    match literal with
    | String c s' =>
        if decide (c = "-"%char) then Z.opp <$> unsigned s'
        else if decide (c = "+"%char) then unsigned s'
        else unsigned (String c s')
    | EmptyString => None
    end
  else None.

(** ** [main] *)

(** How an iteration of [while True] ends. *)
Inductive Next := Continue | Break | Raise (e : Exn).

(** A call from the loop: what it raises escapes [main], whose handlers
    name [ValueError] and [IndexError] only. *)
Definition invoke (e : Effect) : Store * list Msg * Next :=
  (db e, printed e,
   match raised e with
   | Some x => Raise x
   | None => Continue
   end).

(** One iteration on the line [input()] returned, read when the clock
    shows [now]. *)
Definition main_iteration (line : string) (now : Z) (st : Store)
  : Store * list Msg * Next :=
  let user_input := lower (strip line) in
  let parts := split1 user_input in
  let command := List.nth 0 parts "" in
  if decide (command = "exit") then (st, [Goodbye], Break)
  else if decide (command = "add") then
    match parts with
    | [_; description] => invoke (add_task description now st)
    | _ => (st, [ProvideDescription], Continue)
    end
  else if decide (command = "view") then
    match parts with
    | [_; arg] =>
        let filter_arg := lower arg in
        if decide (filter_arg = "pending" \/ filter_arg = "completed")
        then invoke (view_tasks (Some filter_arg) st)
        else (st, [FilterNotAllowed filter_arg], Continue)
    | _ => invoke (view_tasks None st)
    end
  else if decide (command = "complete" \/ command = "pending" \/ command = "delete") then
    match parts with
    | [_; arg] =>
        match int arg with
        | Some task_id =>
            if decide (command = "complete")
            then invoke (update_task_status task_id "completed" st)
            else if decide (command = "pending")
            then invoke (update_task_status task_id "pending" st)
            else invoke (delete_task task_id st)
        | None => (st, [IdMustBeNumber arg command], Continue)
        end
    | _ => (st, [ProvideTaskId command], Continue)
    end
  else if decide (command = "") then (st, [], Continue)
  else (st, [UnknownCommand command], Continue).

(** How the process ends. *)
Inductive Termination := Exited | Uncaught (e : Exn).

(** The loop over the lines of standard input, each with the clock
    reading at which it is processed.  When the lines run out [input()]
    raises [EOFError]. *)
Fixpoint main_loop (input : list (string * Z)) (st : Store)
  : Store * list Msg * Termination :=
  match input with
  | [] => (st, [], Uncaught EOFError)
  | (line, now) :: input' =>
      let '(st', out, nxt) := main_iteration line now st in
      match nxt with
      | Break => (st', out, Exited)
      | Raise e => (st', out, Uncaught e)
      | Continue =>
          let '(st'', out', t) := main_loop input' st' in
          (st'', out ++ out', t)
      end
  end.

Definition main (file : option Store) (input : list (string * Z))
  : Store * list Msg * Termination :=
  let '(st, out, t) := main_loop input (initialize_database file) in
  (st, Welcome :: out, t).

(** ** Beyond ASCII

    The way of a line to [add_task] once more (lines 134 to 144 of the
    script), on text as Python has it: a sequence of Unicode code
    points.  Of Python's character tables this takes the entries of the
    code points below 128 and of U+2102, DOUBLE-STRUCK CAPITAL C; on
    any other code point the functions answer [None]: the line is
    outside the fragment. *)
Module Unicode.

Definition text : Type := list N.

Definition DOUBLE_STRUCK_CAPITAL_C : N := 8450.

(** [str.isspace] of one character. *)
Definition isspace (c : N) : option bool :=
  if (c <? 128)%N
  then Some ((9 <=? c) && (c <=? 13) || (28 <=? c) && (c <=? 32))%N
  else if (c =? DOUBLE_STRUCK_CAPITAL_C)%N then Some false
  else None.


(** [str.lower] of one character; U+2102 has no lower-case form and
    stays as it is. *)
Definition lower_char (c : N) : option N :=
  if (c <? 128)%N
  then Some (if ((65 <=? c) && (c <=? 90))%N then (c + 32)%N else c)
  else if (c =? DOUBLE_STRUCK_CAPITAL_C)%N then Some c
  else None.

(** [str.lower] *)
Fixpoint lower (t : text) : option text :=
  match t with
  | [] => Some []
  | c :: t' => c' ← lower_char c; u ← lower t'; Some (c' :: u)
  end.

(** The characters of a text, each with its [str.isspace]. *)
Fixpoint classified (t : text) : option (list (N * bool)) :=
  match t with
  | [] => Some []
  | c :: t' => b ← isspace c; l ← classified t'; Some ((c, b) :: l)
  end.

Fixpoint lstrip (l : list (N * bool)) : list (N * bool) :=
  match l with
  | (_, true) :: l' => lstrip l'
  | _ => l
  end.

(** [str.strip] *)
Definition strip (t : text) : option text :=
  l ← classified t; Some ((reverse (lstrip (reverse (lstrip l)))).*1).

Fixpoint word (l : list (N * bool)) : text * list (N * bool) :=
  match l with
  | (c, false) :: l' => let '(w, r) := word l' in (c :: w, r)
  | _ => ([], l)
  end.

(** [str.split(maxsplit=1)] *)
Definition split1 (t : text) : option (list text) :=
  l ← classified t;
  Some (match lstrip l with
        | [] => []
        | l1 =>
            let '(w, r) := word l1 in
            match lstrip r with
            | [] => [w]
            | rest => [w; rest.*1]
            end
        end).



End Unicode.

(** ** Vocabulary of the properties *)

(** Newest first, rows of one second in any order. *)
Definition newest_first : list Task -> Prop :=
  StronglySorted (fun t u => created_at u <= created_at t).

(** Newest first, and no two rows of one second. *)
Definition strictly_newest_first : list Task -> Prop :=
  StronglySorted (fun t u => created_at u < created_at t).

(** What SQL promises of the query of [view_tasks]: the selected rows,
    each once, newest first. *)
Definition query_result (status_filter : option string) (st : Store)
  (l : list Task) : Prop :=
  l ≡ₚ where_status status_filter (rows st) /\ newest_first l.

(** Every status in the table is one of the two the script writes. *)
Definition statuses_valid (st : Store) : Prop :=
  Forall (fun t => valid_status (status t)) (rows st).

(** The invariant of a history: the calls made so far, the table they
    left and what they printed. *)
Record history_inv (cs : list Call) (st : Store) (out : list Msg) : Prop := {
  inv_nodup : NoDup (ids st);
  inv_live : forall i, i ∈ ids st <-> i ∈ added_ids out /\ i ∉ deleted_ids out;
  inv_deleted : forall i, i ∈ deleted_ids out -> i ∈ added_ids out;
  inv_issued : forall i, i ∈ added_ids out -> 1 <= i <= seq st;
  inv_seq : 0 <= seq st <= MAX_ROWID;
  inv_status : statuses_valid st;
  inv_reported : forall t, t ∈ rows st -> TaskAdded (description t) (id t) ∈ out;
  inv_created : forall t, t ∈ rows st -> AddTask (description t) (created_at t) ∈ cs;
  inv_increasing : StronglySorted Z.lt (added_ids out)
}.

(** The commands that take an id, and all commands. *)
Definition takes_id (command : string) : Prop :=
  command = "complete" \/ command = "pending" \/ command = "delete".

Definition known_command (command : string) : Prop :=
  command = "exit" \/ command = "add" \/ command = "view"
  \/ takes_id command.

(** [str.isupper] on an ASCII character: the letters A to Z. *)
Definition is_upper (c : ascii) : bool :=
  let n := N_of_ascii c in ((65 <=? n) && (n <=? 90))%N.

(** Some character of the string is one of the letters A to Z, the
    upper-case letters of ASCII text. *)
Fixpoint has_upper (s : string) : bool :=
  match s with
  | EmptyString => false
  | String c s' => is_upper c || has_upper s'
  end.

(** The lines [main] answers itself, with its answer: a blank line, an
    unknown command, [add] without a description, [view] with a filter
    that is no status, and a command that takes an id without one or
    with something [int] does not read, a number of more than 4300
    digits included.  As [int], this is about ASCII lines. *)
Inductive malformed (line : string) : list Msg -> Prop :=
| malformed_blank :
    strip line = "" -> malformed line []
| malformed_unknown command l :
    split1 (lower (strip line)) = command :: l -> ~ known_command command ->
    malformed line [UnknownCommand command]
| malformed_add :
    split1 (lower (strip line)) = ["add"] ->
    malformed line [ProvideDescription]
| malformed_filter arg :
    split1 (lower (strip line)) = ["view"; arg] ->
    ~ (lower arg = "pending" \/ lower arg = "completed") ->
    malformed line [FilterNotAllowed (lower arg)]
| malformed_no_id command :
    split1 (lower (strip line)) = [command] -> takes_id command ->
    malformed line [ProvideTaskId command]
| malformed_id command arg :
    split1 (lower (strip line)) = [command; arg] -> takes_id command ->
    int arg = None ->
    malformed line [IdMustBeNumber arg command].

(** The id a call is about, for the calls that are about one. *)
Definition target (c : Call) : option Z :=
  match c with
  | UpdateTaskStatus task_id _ | DeleteTask task_id => Some task_id
  | _ => None
  end.

(** What a call about an id does to the table, as one map over the
    rows followed by one filter. *)
Definition row_map (c : Call) (t : Task) : Task :=
  match c with
  | UpdateTaskStatus i s =>
      if decide (valid_status s /\ fits_int64 i /\ id t = i)
      then set_status s t else t
  | _ => t
  end.

Definition row_kept (c : Call) (t : Task) : Prop :=
  match c with
  | DeleteTask i => ~ (fits_int64 i /\ id t = i)
  | _ => True
  end.

#[global] Instance row_kept_dec c t : Decision (row_kept c t).
Proof. destruct c; simpl; apply _. Defined.

(** The clock readings of the additions, oldest first. *)
Definition add_times (cs : list Call) : list Z :=
  omap (fun c => match c with AddTask _ now => Some now | _ => None end) cs.

(** [str(n)], the decimal text the messages show an id in. *)
Definition str (n : Z) : string := pretty n.

(** Oldest first by [created_at], no two rows of one second. *)
Definition strictly_oldest_first : list Task -> Prop :=
  StronglySorted (fun t u => created_at t < created_at u).

(** The calls [main] makes at the clock reading [now]: a description
    that is not empty and has no upper-case letter, no filter or one of
    the two statuses, a status out of the two. *)
Definition loop_call (now : Z) (c : Call) : Prop :=
  match c with
  | AddTask description now' =>
      description <> "" /\ has_upper description = false /\ now' = now
  | ViewTasks status_filter =>
      status_filter = None \/ status_filter = Some "pending"
      \/ status_filter = Some "completed"
  | UpdateTaskStatus _ new_status => valid_status new_status
  | DeleteTask _ => True
  end.

Definition is_digit (c : ascii) : bool :=
  match digit c with
  | Some _ => true
  | None => false
  end.

(** Every character of the string passes the test. *)
Fixpoint all_chars (p : ascii -> bool) (s : string) : bool :=
  match s with
  | EmptyString => true
  | String c s' => p c && all_chars p s'
  end.

(** The text is ASCII: every character is below 128. *)
Definition is_ascii (s : string) : Prop := all_chars is_ascii_char s = true.

#[global] Instance is_ascii_dec s : Decision (is_ascii s).
Proof. unfold is_ascii. apply _. Defined.

(** The description a call adds, if it adds one, is ASCII. *)
Definition call_ascii (c : Call) : Prop :=
  match c with
  | AddTask description _ => is_ascii description
  | _ => True
  end.

(** The row a call adds, as the call describes it: the id [add_task]
    reports, with the description and the clock reading it was called
    with. *)
Definition added_row (c : Call) (st : Store) : list Task :=
  match c with
  | AddTask description now =>
      match printed (add_task description now st) with
      | [TaskAdded _ lastrowid] => [mkTask lastrowid description "pending" now]
      | _ => []
      end
  | _ => []
  end.

(** The additions of a history, oldest first. *)
Fixpoint additions (cs : list Call) (st : Store) : list Task :=
  match cs with
  | [] => []
  | c :: cs' => added_row c st ++ additions cs' (db (call c st))
  end.

(** Closed facts by evaluation of their decision procedure. *)
Ltac by_decide := apply (bool_decide_unpack _); vm_compute; exact I.

(** * Properties *)

(** ** Running the script *)

Example session :
  main None [("add Buy Milk", 100); ("complete 1", 101); ("view completed", 102);
             ("delete 1", 103); ("view", 104); ("exit", 105)]
  = (mkStore [] 1,
     [Welcome; TaskAdded "buy milk" 1; MarkedAs 1 "completed";
      ToDoList [mkTask 1 "buy milk" "completed" 100];
      DeletedSuccessfully 1; NoTasks; Goodbye],
     Exited).
Proof. vm_compute. reflexivity. Qed.

Example int_examples :
  map int ["12"; " 007 "; "-3"; "+4"; "1_000"; "1__0"; "_1"; "1_"; "1.5"; ""; "+"; "a"]
  = [Some 12; Some 7; Some (-3); Some 4; Some 1000; None; None; None; None; None; None; None].
Proof. vm_compute. reflexivity. Qed.

Example split1_examples :
  map split1 [""; "  "; "view"; "add  buy  milk"; " add x "]
  = [[]; []; ["view"]; ["add"; "buy  milk"]; ["add"; "x "]].
Proof. vm_compute. reflexivity. Qed.

(** ** ORDER BY *)

Section order_by.

Lemma insert_desc_perm t l : insert_desc t l ≡ₚ t :: l.
Proof.
  induction l as [|u l IH]; simpl; [done|].
  case_decide; [done|].
  rewrite IH. apply Permutation_swap.
Qed.

Lemma order_by_perm l : order_by_created_at_desc l ≡ₚ l.
Proof.
  induction l as [|t l IH]; simpl; [done|].
  rewrite insert_desc_perm. by rewrite IH.
Qed.

Lemma insert_desc_sorted t l :
  newest_first l -> newest_first (insert_desc t l).
Proof.
  unfold newest_first.
  induction l as [|u l IH]; simpl; intros Hs.
  - repeat constructor.
  - apply StronglySorted_inv in Hs as [Hl Hu].
    case_decide as Hlt.
    + constructor; [by constructor|].
      constructor; [lia|].
      eapply Forall_impl; [exact Hu|]. simpl. intros; lia.
    + constructor; [by apply IH|].
      rewrite insert_desc_perm. constructor; [lia|done].
Qed.

Lemma order_by_sorted l : newest_first (order_by_created_at_desc l).
Proof.
  induction l as [|t l IH]; simpl.
  - constructor.
  - by apply insert_desc_sorted.
Qed.

Lemma elem_of_order_by t l : t ∈ order_by_created_at_desc l <-> t ∈ l.
Proof. by rewrite order_by_perm. Qed.

(** Rows of one second stay in scan order. *)
Lemma order_by_same_second l :
  (forall t u, t ∈ l -> u ∈ l -> created_at t = created_at u) ->
  order_by_created_at_desc l = l.
Proof.
  induction l as [|t l IH]; simpl; intros Heq; [done|].
  rewrite IH by (intros; apply Heq; by constructor).
  destruct l as [|u l]; simpl; [done|].
  case_decide as Hle; [done|].
  pose proof (Heq t u ltac:(by left) ltac:(right; by left)). lia.
Qed.

End order_by.

(** ** The statements *)

Section statements.
Implicit Types (st : Store) (i : Z) (t : Task) (s : string).

Lemma select_id_Some st i : i ∈ ids st -> select_id i st = Some i.
Proof.
  unfold select_id. induction (ids st) as [|j l IH]; intros Hin.
  - by apply elem_of_nil in Hin.
  - rewrite filter_cons. case_decide as Hj; [by subst|].
    apply elem_of_cons in Hin as [->|Hin]; [done|by apply IH].
Qed.

Lemma select_id_None st i : i ∉ ids st -> select_id i st = None.
Proof.
  unfold select_id. intros Hnin. apply head_None.
  destruct (filter _ _) as [|j l] eqn:Hf; [done|].
  assert (j ∈ filter (fun k => k = i) (ids st)) as Hj by (rewrite Hf; left).
  apply list_elem_of_filter in Hj as [-> Hj]. done.
Qed.

Lemma rowcount_pos st i :
  i ∈ ids st ->
  Z.of_nat (length (filter (fun t => id t = i) (rows st))) > 0.
Proof.
  unfold ids. intros (t & -> & Ht)%list_elem_of_fmap.
  assert (t ∈ filter (fun u => id u = id t) (rows st)) as Hin
    by by apply list_elem_of_filter.
  destruct (filter _ _); [by apply elem_of_nil in Hin|simpl; lia].
Qed.

Lemma ids_update_status s i st : ids (update_status s i st).1 = ids st.
Proof.
  unfold ids; simpl. rewrite <- list_fmap_compose.
  apply list_fmap_ext. intros _ t _. simpl. by case_decide.
Qed.

Lemma elem_of_update_status s i st t :
  t ∈ rows (update_status s i st).1 <->
  exists u, u ∈ rows st /\
    t = if decide (id u = i) then set_status s u else u.
Proof.
  simpl. rewrite list_elem_of_fmap.
  split; intros (u & Hu & Hin); exists u; by split.
Qed.

Lemma update_status_idemp s i st :
  (update_status s i (update_status s i st).1).1 = (update_status s i st).1.
Proof.
  unfold update_status; simpl. f_equal.
  rewrite <- list_fmap_compose. apply list_fmap_ext. intros _ t _. simpl.
  destruct (decide (id t = i)) as [Hi|Hi]; simpl;
    [by rewrite decide_True|by rewrite decide_False].
Qed.

Lemma ids_delete_row i st :
  ids (delete_row i st).1 = filter (fun j => j <> i) (ids st).
Proof.
  unfold ids; simpl. induction (rows st) as [|t l IH]; [done|].
  rewrite filter_cons, fmap_cons, filter_cons. simpl.
  case_decide; [by rewrite fmap_cons, IH| done].
Qed.

Lemma max_rowid_ge l t : t ∈ l -> id t <= max_rowid l.
Proof.
  induction l as [|u l IH]; simpl; intros Hin.
  - by apply elem_of_nil in Hin.
  - apply elem_of_cons in Hin as [->|Hin]; [lia|]. specialize (IH Hin). lia.
Qed.

Lemma next_rowid_fresh st : next_rowid st ∉ ids st.
Proof.
  unfold ids, next_rowid. intros (t & Heq & Ht)%list_elem_of_fmap.
  apply max_rowid_ge in Ht. lia.
Qed.

Lemma insert_task_Some d now st :
  next_rowid st <= MAX_ROWID ->
  insert_task d now st =
    Some (mkStore (rows st ++ [mkTask (next_rowid st) d "pending" now])
                  (next_rowid st),
          next_rowid st).
Proof. intros. unfold insert_task. by rewrite decide_True. Qed.

Lemma insert_task_None d now st :
  ~ next_rowid st <= MAX_ROWID -> insert_task d now st = None.
Proof. intros. unfold insert_task. by rewrite decide_False. Qed.

End statements.

(** ** The four functions, case by case *)

Section functions.
Implicit Types (st : Store) (i : Z) (t : Task) (s : string).

Lemma update_task_status_found i s st :
  valid_status s -> fits_int64 i -> i ∈ ids st ->
  update_task_status i s st
  = mkEffect (update_status s i st).1 [MarkedAs i s] None.
Proof.
  intros Hs Hi Hin. unfold update_task_status.
  rewrite !decide_True by done. rewrite select_id_Some by done.
  pose proof (rowcount_pos st i Hin) as Hpos.
  unfold update_status. by rewrite decide_True.
Qed.

Lemma update_task_status_missing i s st :
  valid_status s -> fits_int64 i -> i ∉ ids st ->
  update_task_status i s st = mkEffect st [TaskNotFound i] None.
Proof.
  intros Hs Hi Hnin. unfold update_task_status.
  rewrite !decide_True by done. by rewrite select_id_None.
Qed.

Lemma update_task_status_overflow i s st :
  valid_status s -> ~ fits_int64 i ->
  update_task_status i s st = mkEffect st [] (Some OverflowError).
Proof.
  intros Hs Hi. unfold update_task_status.
  rewrite decide_True by done. by rewrite decide_False.
Qed.

Lemma update_task_status_invalid i s st :
  ~ valid_status s ->
  update_task_status i s st = mkEffect st [InvalidStatus s] None.
Proof. intros Hs. unfold update_task_status. by rewrite decide_False. Qed.

Lemma delete_task_found i st :
  fits_int64 i -> i ∈ ids st ->
  delete_task i st
  = mkEffect (delete_row i st).1 [DeletedSuccessfully i] None.
Proof.
  intros Hi Hin. unfold delete_task.
  rewrite decide_True by done. rewrite select_id_Some by done.
  pose proof (rowcount_pos st i Hin) as Hpos.
  unfold delete_row. by rewrite decide_True.
Qed.

Lemma delete_task_missing i st :
  fits_int64 i -> i ∉ ids st ->
  delete_task i st = mkEffect st [TaskNotFound i] None.
Proof.
  intros Hi Hnin. unfold delete_task.
  rewrite decide_True by done. by rewrite select_id_None.
Qed.

Lemma delete_task_overflow i st :
  ~ fits_int64 i -> delete_task i st = mkEffect st [] (Some OverflowError).
Proof. intros Hi. unfold delete_task. by rewrite decide_False. Qed.

Lemma add_task_ok d now st :
  next_rowid st <= MAX_ROWID ->
  add_task d now st
  = mkEffect (mkStore (rows st ++ [mkTask (next_rowid st) d "pending" now])
                      (next_rowid st))
             [TaskAdded d (next_rowid st)] None.
Proof. intros. unfold add_task. by rewrite insert_task_Some. Qed.

Lemma add_task_full d now st :
  ~ next_rowid st <= MAX_ROWID ->
  add_task d now st = mkEffect st [DatabaseError] None.
Proof. intros. unfold add_task. by rewrite insert_task_None. Qed.

Lemma view_tasks_db f st : db (view_tasks f st) = st.
Proof.
  unfold view_tasks. destruct (fetch_tasks f st); [|done].
  by destruct (filter_given f).
Qed.

Lemma fetch_tasks_query_result f st : query_result f st (fetch_tasks f st).
Proof. split; [apply order_by_perm|apply order_by_sorted]. Qed.

Lemma query_result_perm f st l :
  query_result f st l -> l ≡ₚ fetch_tasks f st.
Proof. intros [Hp _]. unfold fetch_tasks. by rewrite order_by_perm. Qed.

Lemma elem_of_fetch_tasks_None st t : t ∈ fetch_tasks None st <-> t ∈ rows st.
Proof. unfold fetch_tasks. by rewrite elem_of_order_by. Qed.

Lemma elem_of_fetch_tasks_Some st s t :
  s <> "" ->
  t ∈ fetch_tasks (Some s) st <-> t ∈ rows st /\ status t = s.
Proof.
  intros Hs. unfold fetch_tasks, where_status, filter_given.
  rewrite decide_False by done.
  rewrite elem_of_order_by, list_elem_of_filter. tauto.
Qed.

Lemma elem_of_fetch_tasks_rows f st t : t ∈ fetch_tasks f st -> t ∈ rows st.
Proof.
  unfold fetch_tasks, where_status. rewrite elem_of_order_by.
  destruct (filter_given f); [|done].
  by intros [_ ?]%list_elem_of_filter.
Qed.

End functions.

(** ** Setting a status *)

(** C1. For every id present in the table, [update_task_status id
    'completed'] called twice in a row prints "marked as completed" both
    times, raises nothing, and leaves every row of that id with status
    completed; the second call changes nothing. *)
Theorem setStatus_completed_twice (st : Store) (i : Z) :
  table_state st -> i ∈ ids st ->
  let e1 := update_task_status i "completed" st in
  let e2 := update_task_status i "completed" (db e1) in
  printed e1 = [MarkedAs i "completed"] /\ raised e1 = None /\
  printed e2 = [MarkedAs i "completed"] /\ raised e2 = None /\
  db e2 = db e1 /\
  i ∈ ids (db e2) /\
  forall t, t ∈ rows (db e2) -> id t = i -> status t = "completed".
Proof.
  intros Hst Hin.
  assert (fits_int64 i) as Hi
    by (unfold table_state in Hst; rewrite Forall_forall in Hst; auto).
  assert (valid_status "completed") as Hv by (by right).
  cbv zeta. rewrite (update_task_status_found i "completed" st) by done.
  cbn [printed raised db].
  assert (i ∈ ids (update_status "completed" i st).1) as Hin'
    by by rewrite ids_update_status.
  rewrite (update_task_status_found i "completed" _ Hv Hi Hin').
  cbn [printed raised db]. rewrite update_status_idemp.
  repeat split; try done.
  intros t (u & Hu & ->)%elem_of_update_status Hid.
  destruct (decide (id u = i)) as [_|Hne]; [done|]. by destruct Hne.
Qed.

Lemma setStatus_completed_twice_witness :
  let st := mkStore [mkTask 1 "buy milk" "pending" 100; mkTask 2 "call" "completed" 100] 2 in
  table_state st /\ 1 ∈ ids st /\
  db (update_task_status 1 "completed" (db (update_task_status 1 "completed" st)))
  = mkStore [mkTask 1 "buy milk" "completed" 100; mkTask 2 "call" "completed" 100] 2.
Proof.
  intros st.
  assert (table_state st) as H1 by by_decide.
  assert (1 ∈ ids st) as H2 by by_decide.
  split; [exact H1|split; [exact H2|]].
  destruct (setStatus_completed_twice st 1 H1 H2) as (_ & _ & _ & _ & -> & _).
  reflexivity.
Defined.

(** No table holds an id outside the 64-bit range. *)
Lemma wide_id_absent (st : Store) (i : Z) :
  table_state st -> ~ fits_int64 i -> i ∉ ids st.
Proof.
  unfold table_state. rewrite Forall_forall. intros Hst Hi Hin. auto.
Qed.

(** In range and absent: "not found", and the table is untouched. *)
Lemma setStatus_absent_in_range (st : Store) (i : Z) (s : string) :
  valid_status s -> fits_int64 i -> i ∉ ids st ->
  update_task_status i s st = mkEffect st [TaskNotFound i] None.
Proof. apply update_task_status_missing. Qed.

(** C5, at the id 2^63, which no table holds: the call prints nothing,
    "not found" included, and [OverflowError] escapes it; the table is
    untouched. *)
Theorem setStatus_absent_id_overflows (st : Store) :
  update_task_status 9223372036854775808 "completed" st
  = mkEffect st [] (Some OverflowError).
Proof.
  apply update_task_status_overflow; [by right|].
  unfold fits_int64, MAX_ROWID. lia.
Qed.

(** ** Deleting *)

(** C6. For every id present in the table, [delete_task id] prints
    "deleted successfully" and removes the rows of that id and no other,
    so that no listing, filtered or not, contains the id afterwards; a
    second [delete_task id] prints "not found" and changes nothing. *)
Theorem deleteTask_removes_then_not_found (st : Store) (i : Z) :
  table_state st -> i ∈ ids st ->
  let e1 := delete_task i st in
  let e2 := delete_task i (db e1) in
  printed e1 = [DeletedSuccessfully i] /\ raised e1 = None /\
  rows (db e1) = filter (fun t => id t <> i) (rows st) /\
  seq (db e1) = seq st /\
  (forall f t, t ∈ fetch_tasks f (db e1) -> id t <> i) /\
  (forall t, id t <> i -> t ∈ fetch_tasks None (db e1) <-> t ∈ fetch_tasks None st) /\
  printed e2 = [TaskNotFound i] /\ raised e2 = None /\ db e2 = db e1.
Proof.
  intros Hst Hin.
  assert (fits_int64 i) as Hi
    by (unfold table_state in Hst; rewrite Forall_forall in Hst; auto).
  cbv zeta. rewrite (delete_task_found i st) by done. cbn [printed raised db].
  assert (i ∉ ids (delete_row i st).1) as Hgone.
  { rewrite ids_delete_row. by intros [? _]%list_elem_of_filter. }
  rewrite (delete_task_missing i _ Hi Hgone). cbn [printed raised db].
  repeat split; try done.
  - intros f t Ht%elem_of_fetch_tasks_rows. simpl in Ht.
    by apply list_elem_of_filter in Ht as [? _].
  - rewrite !elem_of_fetch_tasks_None. simpl.
    by intros [_ ?]%list_elem_of_filter.
  - rewrite !elem_of_fetch_tasks_None. simpl. intros.
    by apply list_elem_of_filter.
Qed.

Lemma deleteTask_removes_then_not_found_witness :
  let st := mkStore [mkTask 1 "buy milk" "pending" 100; mkTask 2 "call" "completed" 100] 2 in
  table_state st /\ 1 ∈ ids st /\
  db (delete_task 1 st) = mkStore [mkTask 2 "call" "completed" 100] 2 /\
  printed (delete_task 1 (db (delete_task 1 st))) = [TaskNotFound 1].
Proof.
  intros st.
  assert (table_state st) as H1 by by_decide.
  assert (1 ∈ ids st) as H2 by by_decide.
  split; [exact H1|split; [exact H2|]].
  destruct (deleteTask_removes_then_not_found st 1 H1 H2)
    as (_ & _ & _ & _ & _ & _ & Hp & _ & _).
  split; [reflexivity|exact Hp].
Defined.

(** ** Listing by status *)

Lemma filter_completed_complement (l : list Task) :
  Forall (fun t => valid_status (status t)) l ->
  filter (fun t => status t = "completed") l
  = filter (fun t => ~ status t = "pending") l.
Proof.
  induction 1 as [|t l Ht _ IH]; [done|].
  rewrite !filter_cons, IH.
  destruct Ht as [Ht|Ht]; rewrite Ht; done.
Qed.

(** C4. In a table whose statuses are pending or completed, the listing
    filtered by pending holds exactly the rows with status pending, the
    listing filtered by completed exactly the others, all of which have
    status completed, and the two together are the unfiltered listing,
    each row in one of them only. *)
Theorem listTasks_filters_partition (st : Store) :
  statuses_valid st ->
  let pending := fetch_tasks (Some "pending") st in
  let completed := fetch_tasks (Some "completed") st in
  pending ≡ₚ filter (fun t => status t = "pending") (rows st) /\
  completed ≡ₚ filter (fun t => ~ status t = "pending") (rows st) /\
  (forall t, t ∈ pending <-> t ∈ rows st /\ status t = "pending") /\
  (forall t, t ∈ completed <-> t ∈ rows st /\ status t = "completed") /\
  pending ++ completed ≡ₚ fetch_tasks None st /\
  (forall t, t ∈ pending -> t ∉ completed).
Proof.
  intros Hv. cbv zeta.
  assert (fetch_tasks (Some "pending") st
          ≡ₚ filter (fun t => status t = "pending") (rows st)) as Hp
    by apply order_by_perm.
  assert (fetch_tasks (Some "completed") st
          ≡ₚ filter (fun t => ~ status t = "pending") (rows st)) as Hc.
  { rewrite <- filter_completed_complement by done. apply order_by_perm. }
  split; [done|]. split; [done|].
  split; [intros t; by apply elem_of_fetch_tasks_Some|].
  split; [intros t; by apply elem_of_fetch_tasks_Some|].
  split.
  - rewrite Hp, Hc. unfold fetch_tasks, where_status. simpl.
    rewrite order_by_perm. apply filter_app_complement.
  - intros t [_ Ht]%elem_of_fetch_tasks_Some [_ Ht']%elem_of_fetch_tasks_Some;
      [congruence|done|done].
Qed.

Lemma listTasks_filters_partition_witness :
  let st := mkStore [mkTask 1 "buy milk" "pending" 100;
                     mkTask 2 "call" "completed" 101;
                     mkTask 4 "write" "pending" 107] 4 in
  statuses_valid st /\
  fetch_tasks (Some "pending") st ++ fetch_tasks (Some "completed") st
  ≡ₚ fetch_tasks None st.
Proof.
  intros st.
  assert (statuses_valid st) as H1 by by_decide.
  split; [exact H1|].
  exact (proj1 (proj2 (proj2 (proj2 (proj2 (listTasks_filters_partition st H1)))))).
Defined.

(** ** Histories: what holds after any sequence of calls *)

Section history.
Implicit Types (st : Store) (out : list Msg) (cs : list Call) (c : Call).

Lemma calls_snoc cs c st :
  calls (cs ++ [c]) st
  = (db (call c (calls cs st).1),
     (calls cs st).2 ++ printed (call c (calls cs st).1)).
Proof.
  unfold calls. rewrite foldl_snoc.
  by destruct (foldl _ _ _) as [s o].
Qed.

Lemma history_inv_empty : history_inv [] empty_db [].
Proof.
  split; simpl; try (intros x Hx; by apply elem_of_nil in Hx);
    try by constructor.
  intros i. split; [intros Hi|intros [Hi _]]; by apply elem_of_nil in Hi.
Qed.

Lemma ids_bounded cs st out t :
  history_inv cs st out -> t ∈ rows st -> 1 <= id t <= seq st.
Proof.
  intros H Ht. apply (inv_issued _ _ _ H).
  apply (inv_live _ _ _ H). unfold ids. by apply list_elem_of_fmap_2.
Qed.

Lemma next_rowid_history cs st out :
  history_inv cs st out -> next_rowid st = seq st + 1.
Proof.
  intros H. unfold next_rowid.
  assert (max_rowid (rows st) <= seq st); [|lia].
  pose proof (inv_seq _ _ _ H) as Hs.
  assert (forall t, t ∈ rows st -> id t <= seq st) as Hb
    by (intros t Ht; eapply ids_bounded in Ht; [lia|done]).
  clear H. induction (rows st) as [|t l IH]; simpl; [lia|].
  assert (id t <= seq st) by (apply Hb; left).
  assert (max_rowid l <= seq st) by (apply IH; intros; apply Hb; by right).
  lia.
Qed.

(** A call that touches no row and reports neither an addition nor a
    deletion. *)
Lemma history_inv_quiet cs c st out ms :
  added_ids ms = [] -> deleted_ids ms = [] ->
  history_inv cs st out -> history_inv (cs ++ [c]) st (out ++ ms).
Proof.
  intros Ha Hd H. destruct H.
  split; unfold added_ids, deleted_ids in *;
    rewrite ?omap_app, ?Ha, ?Hd, ?app_nil_r; try done.
  - intros t Ht. apply elem_of_app. left. auto.
  - intros t Ht. apply elem_of_app. left. auto.
Qed.

Lemma history_inv_add cs st out d now :
  history_inv cs st out ->
  history_inv (cs ++ [AddTask d now]) (db (add_task d now st))
              (out ++ printed (add_task d now st)).
Proof.
  intros H. destruct (decide (next_rowid st <= MAX_ROWID)) as [Hr|Hr].
  2: { rewrite add_task_full by done. by apply history_inv_quiet. }
  rewrite add_task_ok by done. cbn [db printed].
  pose proof (next_rowid_history _ _ _ H) as Hn.
  pose proof (next_rowid_fresh st) as Hfresh.
  assert (forall i, i ∈ added_ids out -> i < next_rowid st) as Hlt
    by (intros i Hi; apply (inv_issued _ _ _ H) in Hi; lia).
  assert (next_rowid st ∉ deleted_ids out) as Hnd.
  { intros Hi%(inv_deleted _ _ _ H)%Hlt. lia. }
  destruct H.
  split; unfold added_ids, deleted_ids, ids, statuses_valid in *;
    cbn [rows seq]; rewrite ?omap_app, ?fmap_app; simpl;
    rewrite ?app_nil_r.
  - apply NoDup_app. split; [done|]. split; [|apply NoDup_singleton].
    intros i Hi ->%list_elem_of_singleton. done.
  - intros i. rewrite !elem_of_app, !list_elem_of_singleton, inv_live0.
    split.
    + intros [[? ?]| ->]; split; auto.
    + intros [[?| ->] ?]; auto.
  - intros i Hi. apply elem_of_app. left. auto.
  - intros i [Hi| ->%list_elem_of_singleton]%elem_of_app; [|lia].
    apply inv_issued0 in Hi. lia.
  - lia.
  - apply Forall_app. split; [done|]. constructor; [by left|constructor].
  - intros t [Ht| ->%list_elem_of_singleton]%elem_of_app;
      apply elem_of_app; [left; auto|right; simpl; left].
  - intros t [Ht| ->%list_elem_of_singleton]%elem_of_app;
      apply elem_of_app; [left; auto|right; simpl; left].
  - apply StronglySorted_app_2; [|done|repeat constructor].
    intros i j Hi ->%list_elem_of_singleton. auto.
Qed.

Lemma history_inv_view cs st out f :
  history_inv cs st out ->
  history_inv (cs ++ [ViewTasks f]) (db (view_tasks f st))
              (out ++ printed (view_tasks f st)).
Proof.
  intros H. rewrite view_tasks_db. apply history_inv_quiet; [| |done];
    unfold view_tasks; destruct (fetch_tasks f st); try done;
    by destruct (filter_given f).
Qed.

Lemma history_inv_update cs st out i s :
  history_inv cs st out ->
  history_inv (cs ++ [UpdateTaskStatus i s]) (db (update_task_status i s st))
              (out ++ printed (update_task_status i s st)).
Proof.
  intros H.
  destruct (decide (valid_status s)) as [Hs|Hs].
  2: { rewrite update_task_status_invalid by done. by apply history_inv_quiet. }
  destruct (decide (fits_int64 i)) as [Hi|Hi].
  2: { rewrite update_task_status_overflow by done. by apply history_inv_quiet. }
  destruct (decide (i ∈ ids st)) as [Hin|Hin].
  2: { rewrite update_task_status_missing by done. by apply history_inv_quiet. }
  rewrite update_task_status_found by done. cbn [db printed].
  destruct (history_inv_quiet cs (UpdateTaskStatus i s) st out
              [MarkedAs i s] eq_refl eq_refl H).
  split; rewrite ?ids_update_status; try done.
  - unfold statuses_valid in *. simpl. apply Forall_fmap.
    eapply Forall_impl; [done|]. simpl. intros t Ht. by case_decide.
  - intros t (u & Hu & ->)%elem_of_update_status.
    apply inv_reported0 in Hu. by case_decide.
  - intros t (u & Hu & ->)%elem_of_update_status.
    apply inv_created0 in Hu. by case_decide.
Qed.

Lemma history_inv_delete cs st out i :
  history_inv cs st out ->
  history_inv (cs ++ [DeleteTask i]) (db (delete_task i st))
              (out ++ printed (delete_task i st)).
Proof.
  intros H.
  destruct (decide (fits_int64 i)) as [Hi|Hi].
  2: { rewrite delete_task_overflow by done. by apply history_inv_quiet. }
  destruct (decide (i ∈ ids st)) as [Hin|Hin].
  2: { rewrite delete_task_missing by done. by apply history_inv_quiet. }
  rewrite delete_task_found by done. cbn [db printed].
  assert (i ∈ added_ids out) as Hadded by by apply (inv_live _ _ _ H).
  destruct H.
  split; rewrite ?ids_delete_row; unfold added_ids, deleted_ids in *;
    rewrite ?omap_app; simpl; rewrite ?app_nil_r; try done.
  - by apply NoDup_filter.
  - intros j. rewrite list_elem_of_filter, elem_of_app,
      list_elem_of_singleton, inv_live0. tauto.
  - intros j [Hj| ->%list_elem_of_singleton]%elem_of_app; auto.
  - unfold statuses_valid in *. simpl.
    apply Forall_forall. intros t [_ Ht]%list_elem_of_filter.
    rewrite Forall_forall in inv_status0. auto.
  - intros t [_ Ht]%list_elem_of_filter. apply elem_of_app. left. auto.
  - intros t [_ Ht]%list_elem_of_filter. apply elem_of_app. left. auto.
Qed.

Lemma history_inv_call cs c st out :
  history_inv cs st out ->
  history_inv (cs ++ [c]) (db (call c st)) (out ++ printed (call c st)).
Proof.
  destruct c; simpl;
    auto using history_inv_add, history_inv_view, history_inv_update,
      history_inv_delete.
Qed.

(** The invariant holds after every sequence of calls on a table that
    starts empty. *)
Lemma history_inv_calls cs :
  history_inv cs (calls cs empty_db).1 (calls cs empty_db).2.
Proof.
  induction cs as [|c cs IH] using rev_ind.
  - apply history_inv_empty.
  - rewrite calls_snoc. by apply history_inv_call.
Qed.

End history.

(** ** Invariant of the table *)

(** C8. After any sequence of calls of [add_task], [view_tasks],
    [update_task_status] (with any text as the new status) and
    [delete_task] on a table that starts empty, the ids of the rows are
    pairwise distinct and every status is 'pending' or 'completed'. *)
Theorem reachable_ids_distinct_statuses_valid (cs : list Call) :
  NoDup (ids (calls cs empty_db).1) /\ statuses_valid (calls cs empty_db).1.
Proof.
  pose proof (history_inv_calls cs) as H.
  split; [apply (inv_nodup _ _ _ H)|apply (inv_status _ _ _ H)].
Qed.

(** One call keeps the ids distinct in any table, whatever its counter. *)
Lemma call_keeps_ids_distinct (c : Call) (st : Store) :
  NoDup (ids st) -> NoDup (ids (db (call c st))).
Proof.
  intros Hnd. destruct c as [d now|f|i s|i]; simpl.
  - unfold add_task, insert_task. case_decide; [|done]. simpl.
    unfold ids; simpl. rewrite fmap_app. apply NoDup_app.
    split; [done|]. split; [|apply NoDup_singleton].
    intros j Hj ->%list_elem_of_singleton. by apply (next_rowid_fresh st).
  - by rewrite view_tasks_db.
  - unfold update_task_status. repeat case_decide; try done.
    destruct (select_id i st); [|done].
    pose proof (ids_update_status s i st) as Hids.
    unfold update_status in *. by case_decide; simpl in *; rewrite Hids.
  - unfold delete_task. case_decide; [|done].
    destruct (select_id i st); [|done].
    pose proof (ids_delete_row i st) as Hids.
    unfold delete_row in *.
    case_decide; simpl in *; rewrite Hids; by apply NoDup_filter.
Qed.

(** ** Ids *)

(** C7. After any sequence of calls on a table that starts empty, an
    [add_task] that reports an id reports one that is greater than every
    id reported before, those of deleted rows included, and that no row
    of the table has; the row it inserts has that id. *)
Theorem addTask_id_greater_than_issued (cs : list Call) (d : string) (now r : Z) :
  printed (add_task d now (calls cs empty_db).1) = [TaskAdded d r] ->
  (forall i, i ∈ added_ids (calls cs empty_db).2 -> i < r) /\
  (r ∉ ids (calls cs empty_db).1) /\
  mkTask r d "pending" now ∈ rows (db (add_task d now (calls cs empty_db).1)) /\
  StronglySorted Z.lt (added_ids (calls (cs ++ [AddTask d now]) empty_db).2).
Proof.
  intros Hp.
  pose proof (history_inv_calls cs) as H.
  pose proof (history_inv_calls (cs ++ [AddTask d now])) as H'.
  destruct (decide (next_rowid (calls cs empty_db).1 <= MAX_ROWID)) as [Hr|Hr].
  2: { by rewrite add_task_full in Hp. }
  rewrite add_task_ok in Hp |- * by done. simpl in Hp.
  injection Hp as <-.
  split; [|split; [apply next_rowid_fresh|split]].
  - intros i Hi%(inv_issued _ _ _ H).
    rewrite (next_rowid_history _ _ _ H). lia.
  - simpl. apply elem_of_app. right. left.
  - apply (inv_increasing _ _ _ H').
Qed.

Lemma addTask_id_greater_than_issued_witness :
  let cs := [AddTask "a" 100; AddTask "b" 100; DeleteTask 2] in
  printed (add_task "c" 101 (calls cs empty_db).1) = [TaskAdded "c" 3] /\
  added_ids (calls cs empty_db).2 = [1; 2] /\
  forall i, i ∈ added_ids (calls cs empty_db).2 -> i < 3.
Proof.
  intros cs.
  assert (printed (add_task "c" 101 (calls cs empty_db).1) = [TaskAdded "c" 3])
    as H by reflexivity.
  split; [exact H|split; [reflexivity|]].
  exact (proj1 (addTask_id_greater_than_issued cs "c" 101 3 H)).
Defined.

(** ** Listing everything *)

(** C3 as stated fails: two rows added within one second have the same
    [created_at], so the listing is not strictly newest first, and no
    answer the query may give is. *)
Lemma listTasks_same_second_not_strict :
  let st := (calls [AddTask "a" 100; AddTask "b" 100] empty_db).1 in
  rows st = [mkTask 1 "a" "pending" 100; mkTask 2 "b" "pending" 100] /\
  ~ strictly_newest_first (fetch_tasks None st) /\
  forall l, query_result None st l -> ~ strictly_newest_first l.
Proof.
  intros st.
  assert (forall l, query_result None st l -> ~ strictly_newest_first l) as Hq.
  { intros l [Hp _] Hs. symmetry in Hp.
    apply Permutation_length_2_inv in Hp as [->| ->];
      apply StronglySorted_inv in Hs as [_ Hs];
      apply Forall_inv in Hs; simpl in Hs; lia. }
  split; [reflexivity|]. split; [|exact Hq].
  apply Hq, fetch_tasks_query_result.
Qed.

(** ** Strings *)

Section strings.
Implicit Types (c : ascii) (s : string).

Ltac by_cases_on c :=
  destruct c as [[] [] [] [] [] [] [] []]; reflexivity.

Lemma is_space_lower_char c : is_space (lower_char c) = is_space c.
Proof. by_cases_on c. Qed.


Lemma is_upper_lower_char c : is_upper (lower_char c) = false.
Proof. by_cases_on c. Qed.


Lemma has_upper_lower s : has_upper (lower s) = false.
Proof.
  induction s as [|c s IH]; simpl; [done|].
  by rewrite is_upper_lower_char, IH.
Qed.

Lemma lower_empty s : lower s = "" <-> s = "".
Proof. by destruct s. Qed.

Lemma lstrip_lower s : lstrip (lower s) = lower (lstrip s).
Proof.
  induction s as [|c s IH]; simpl; [done|].
  rewrite is_space_lower_char. by destruct (is_space c).
Qed.



Lemma word_lower s :
  word (lower s) = (lower (word s).1, lower (word s).2).
Proof.
  induction s as [|c s IH]; simpl; [done|].
  rewrite is_space_lower_char. destruct (is_space c); [done|].
  rewrite IH. by destruct (word s).
Qed.

Lemma split1_lower s : split1 (lower s) = lower <$> split1 s.
Proof.
  unfold split1. rewrite lstrip_lower.
  destruct (lstrip s) as [|c s1] eqn:Hs; [done|].
  pose proof (word_lower (String c s1)) as Hw.
  destruct (word (String c s1)) as [w r].
  cbn [lower] in *. rewrite Hw. cbn [fst snd].
  rewrite lstrip_lower. by destruct (lstrip r).
Qed.

Lemma lstrip_head s c s' : lstrip s = String c s' -> is_space c = false.
Proof.
  induction s as [|a s IH]; simpl; [done|].
  destruct (is_space a) eqn:Ha; [done|]. by intros [= <- _].
Qed.

(** The rest of a split line is never empty. *)
Lemma split1_rest s w d : split1 s = [w; d] -> d <> "".
Proof.
  unfold split1. destruct (lstrip s) as [|a s1]; [done|].
  destruct (word (String a s1)) as [w' r].
  destruct (lstrip r); [done|]. by intros [= _ <-].
Qed.

(** Nor is its first word. *)
Lemma split1_word s w l : split1 s = w :: l -> w <> "".
Proof.
  unfold split1. destruct (lstrip s) as [|a s1] eqn:Hs; [done|].
  apply lstrip_head in Hs. simpl. rewrite Hs.
  destruct (word s1) as [w' r].
  destruct (lstrip r); by intros [= <- _].
Qed.

(** A split line has at most two parts. *)
Lemma split1_parts s :
  split1 s = [] \/ (exists w, split1 s = [w]) \/ exists w d, split1 s = [w; d].
Proof.
  unfold split1. destruct (lstrip s) as [|a s1]; [by left|right].
  destruct (word (String a s1)) as [w r].
  destruct (lstrip r); [left|right]; eauto.
Qed.

Lemma split1_blank s : strip s = "" -> split1 (lower (strip s)) = [].
Proof. by intros ->. Qed.

End strings.

(** ** The loop, command by command *)

Section loop.
Implicit Types (line : string) (now : Z) (st : Store).

Ltac no_member H :=
  repeat (apply elem_of_cons in H as [H|H]; [discriminate H|]);
  by apply elem_of_nil in H.

Lemma update_task_status_adds_nothing i s st d r :
  TaskAdded d r ∉ printed (update_task_status i s st).
Proof.
  unfold update_task_status, update_status. intros H.
  repeat case_decide; try destruct (select_id i st);
    try case_decide; simpl in H; no_member H.
Qed.

Lemma delete_task_adds_nothing i st d r :
  TaskAdded d r ∉ printed (delete_task i st).
Proof.
  unfold delete_task, delete_row. intros H.
  repeat case_decide; try destruct (select_id i st);
    try case_decide; simpl in H; no_member H.
Qed.

Lemma view_tasks_adds_nothing f st d r :
  TaskAdded d r ∉ printed (view_tasks f st).
Proof.
  unfold view_tasks. intros H.
  destruct (fetch_tasks f st); [destruct (filter_given f)|];
    simpl in H; no_member H.
Qed.

Lemma add_task_added d now st d' r :
  TaskAdded d' r ∈ printed (add_task d now st) ->
  d' = d /\ r = next_rowid st /\ next_rowid st <= MAX_ROWID.
Proof.
  destruct (decide (next_rowid st <= MAX_ROWID)) as [Hr|Hr].
  - rewrite add_task_ok by done. simpl.
    intros [=]%list_elem_of_singleton. by subst.
  - rewrite add_task_full by done. simpl. intros H. no_member H.
Qed.


Lemma main_iteration_exit line now st l :
  split1 (lower (strip line)) = "exit" :: l ->
  main_iteration line now st = (st, [Goodbye], Break).
Proof. intros H. unfold main_iteration. by rewrite H. Qed.

Lemma main_iteration_add line now st d :
  split1 (lower (strip line)) = ["add"; d] ->
  main_iteration line now st = invoke (add_task d now st).
Proof. intros H. unfold main_iteration. by rewrite H. Qed.

(** [add] without a description. *)
Lemma main_iteration_add_alone line now st :
  split1 (lower (strip line)) = ["add"] ->
  main_iteration line now st = (st, [ProvideDescription], Continue).
Proof. intros H. unfold main_iteration. by rewrite H. Qed.

Lemma main_iteration_view line now st :
  split1 (lower (strip line)) = ["view"] ->
  main_iteration line now st = invoke (view_tasks None st).
Proof. intros H. unfold main_iteration. by rewrite H. Qed.

Lemma main_iteration_view_filter line now st arg :
  split1 (lower (strip line)) = ["view"; arg] ->
  arg = "pending" \/ arg = "completed" ->
  main_iteration line now st = invoke (view_tasks (Some arg) st).
Proof.
  intros H Harg. unfold main_iteration. rewrite H.
  by destruct Harg as [-> | ->].
Qed.

(** [view] with a filter that is neither status. *)
Lemma main_iteration_view_bad_filter line now st arg :
  split1 (lower (strip line)) = ["view"; arg] ->
  ~ (lower arg = "pending" \/ lower arg = "completed") ->
  main_iteration line now st = (st, [FilterNotAllowed (lower arg)], Continue).
Proof.
  intros H Harg. unfold main_iteration. rewrite H. simpl.
  by rewrite decide_False.
Qed.

(** [complete], [pending] or [delete] without an id. *)
Lemma main_iteration_id_missing line now st command :
  split1 (lower (strip line)) = [command] -> takes_id command ->
  main_iteration line now st = (st, [ProvideTaskId command], Continue).
Proof.
  intros H Hc. unfold main_iteration. rewrite H.
  by destruct Hc as [->|[->| ->]].
Qed.

(** [complete], [pending] or [delete] with an id that is no integer. *)
Lemma main_iteration_id_not_integer line now st command arg :
  split1 (lower (strip line)) = [command; arg] -> takes_id command ->
  int arg = None ->
  main_iteration line now st = (st, [IdMustBeNumber arg command], Continue).
Proof.
  intros H Hc Hint. unfold main_iteration. rewrite H.
  destruct Hc as [->|[->| ->]]; simpl; by rewrite Hint.
Qed.

Lemma main_iteration_id line now st command arg task_id :
  split1 (lower (strip line)) = [command; arg] -> takes_id command ->
  int arg = Some task_id ->
  main_iteration line now st
  = invoke (if decide (command = "delete") then delete_task task_id st
            else update_task_status task_id
                   (if decide (command = "complete") then "completed"
                    else "pending") st).
Proof.
  intros H Hc Hint. unfold main_iteration. rewrite H.
  destruct Hc as [->|[->| ->]]; simpl; by rewrite Hint.
Qed.

(** A first word that is no command. *)
Lemma main_iteration_unknown line now st command l :
  split1 (lower (strip line)) = command :: l -> ~ known_command command ->
  main_iteration line now st = (st, [UnknownCommand command], Continue).
Proof.
  intros H Hc. pose proof (split1_word _ _ _ H) as Hne.
  unfold main_iteration. rewrite H. simpl.
  unfold known_command, takes_id in Hc.
  rewrite !decide_False; try done; tauto.
Qed.

(** A line of white space only. *)
Lemma main_iteration_blank line now st :
  strip line = "" -> main_iteration line now st = (st, [], Continue).
Proof. intros H. unfold main_iteration. by rewrite H. Qed.

(** The only row the loop adds is the one of an [add] with a
    description. *)
Lemma main_iteration_added line now st d r :
  TaskAdded d r ∈ (main_iteration line now st).1.2 ->
  split1 (lower (strip line)) = ["add"; d] /\
  main_iteration line now st = invoke (add_task d now st) /\
  r = next_rowid st /\ next_rowid st <= MAX_ROWID.
Proof.
  unfold main_iteration.
  destruct (split1_parts (lower (strip line)))
    as [H|[(w & H)|(w & a & H)]]; rewrite H; cbn [List.nth];
    repeat case_decide; subst; try destruct (int a);
    repeat case_decide; cbn [fst snd invoke];
    intros Hin;
    try (by apply update_task_status_adds_nothing in Hin);
    try (by apply delete_task_adds_nothing in Hin);
    try (by apply view_tasks_adds_nothing in Hin);
    try (no_member Hin).
  all: by apply add_task_added in Hin as (-> & -> & ?).
Qed.

End loop.

(** ** Adding *)

(** C2 as stated fails: [add_task] checks nothing, and called with the
    empty string it inserts a row whose description is empty. *)
Lemma addTask_empty_description_inserted :
  add_task "" 100 empty_db
  = mkEffect (mkStore [mkTask 1 "" "pending" 100] 1) [TaskAdded "" 1] None.
Proof. reflexivity. Qed.

(** C2, amended. For every description, the empty one included,
    [add_task] inserts exactly one row, with that description, status
    pending and the current time, and reports its id, as long as a rowid
    is left.  The empty description is kept out by the loop: whatever
    line it reads, a description it adds is not empty, and [add] with
    nothing after it prints an error and leaves the table as it is. *)
Theorem addTask_inserts_loop_guards_empty (d : string) (now : Z) (st : Store) :
  next_rowid st <= MAX_ROWID ->
  add_task d now st
  = mkEffect (mkStore (rows st ++ [mkTask (next_rowid st) d "pending" now])
                      (next_rowid st))
             [TaskAdded d (next_rowid st)] None
  /\ (forall line d' r,
        TaskAdded d' r ∈ (main_iteration line now st).1.2 -> d' <> "")
  /\ (forall line,
        split1 (lower (strip line)) = ["add"] ->
        main_iteration line now st = (st, [ProvideDescription], Continue)).
Proof.
  intros Hr. split; [by apply add_task_ok|]. split.
  - intros line d' r (Hs & _)%main_iteration_added.
    by apply split1_rest in Hs.
  - intros line. apply main_iteration_add_alone.
Qed.

Lemma addTask_inserts_loop_guards_empty_witness :
  next_rowid empty_db <= MAX_ROWID /\
  add_task "buy milk" 100 empty_db
  = mkEffect (mkStore [mkTask 1 "buy milk" "pending" 100] 1)
             [TaskAdded "buy milk" 1] None /\
  main_iteration "add" 100 empty_db = (empty_db, [ProvideDescription], Continue).
Proof.
  assert (next_rowid empty_db <= MAX_ROWID) as H by by_decide.
  destruct (addTask_inserts_loop_guards_empty "buy milk" 100 empty_db H)
    as (H1 & _ & H3).
  split; [exact H|]. split; [exact H1|]. apply H3. reflexivity.
Defined.

(** ** ASCII text stays ASCII *)

Section ascii_text.
Implicit Types (s : string) (c : ascii) (p : ascii -> bool).

Lemma lower_char_ascii c : is_ascii_char (lower_char c) = is_ascii_char c.
Proof. destruct c as [[] [] [] [] [] [] [] []]; reflexivity. Qed.

Lemma lower_ascii s : is_ascii s -> is_ascii (lower s).
Proof.
  unfold is_ascii. induction s as [|c s IH]; [done|]. simpl.
  intros [Hc Hs]%andb_prop. by rewrite lower_char_ascii, Hc, IH.
Qed.

Lemma lstrip_keeps p s : all_chars p s = true -> all_chars p (lstrip s) = true.
Proof.
  induction s as [|c s IH]; [done|]. simpl.
  intros [Hc Hs]%andb_prop.
  destruct (is_space c); [by apply IH|]. simpl. by rewrite Hc, Hs.
Qed.

Lemma rstrip_keeps p s : all_chars p s = true -> all_chars p (rstrip s) = true.
Proof.
  induction s as [|c s IH]; [done|]. simpl.
  intros [Hc Hs]%andb_prop. specialize (IH Hs).
  destruct (rstrip s) as [|a r].
  - destruct (is_space c); [done|]. simpl. by rewrite Hc.
  - cbn [all_chars] in *. by rewrite Hc, IH.
Qed.

Lemma word_keeps p s :
  all_chars p s = true ->
  all_chars p (word s).1 = true /\ all_chars p (word s).2 = true.
Proof.
  induction s as [|c s IH]; [done|]. simpl.
  intros [Hc Hs]%andb_prop. destruct (IH Hs) as [IH1 IH2].
  destruct (is_space c); [simpl; by rewrite Hc, Hs|].
  destruct (word s) as [w r]. simpl in *. by rewrite Hc, IH1.
Qed.

Lemma split1_keeps p s x :
  all_chars p s = true -> x ∈ split1 s -> all_chars p x = true.
Proof.
  intros Hs%(lstrip_keeps p). unfold split1.
  destruct (lstrip s) as [|c s1] eqn:Hl; [by intros ?%elem_of_nil|].
  destruct (word_keeps p _ Hs) as [Hw Hr].
  destruct (word (String c s1)) as [w r]. cbn [fst snd] in *.
  apply (lstrip_keeps p) in Hr.
  destruct (lstrip r) as [|a r']; intros Hx;
    repeat (apply elem_of_cons in Hx as [->|Hx]; [done|]);
    by apply elem_of_nil in Hx.
Qed.

(** The parts of an ASCII line are ASCII. *)
Lemma line_parts_ascii line x :
  is_ascii line -> x ∈ split1 (lower (strip line)) -> is_ascii x.
Proof.
  intros Hl. apply split1_keeps, lower_ascii.
  unfold strip. by apply rstrip_keeps, lstrip_keeps.
Qed.

End ascii_text.

(** ** Case *)




(** ** How the loop ends *)

Section termination.
Implicit Types (line : string) (now : Z) (st : Store).

Lemma update_task_status_raised i s st e :
  raised (update_task_status i s st) = Some e ->
  e = OverflowError /\ ~ fits_int64 i.
Proof.
  unfold update_task_status, update_status.
  repeat case_decide; try destruct (select_id i st);
    try case_decide; simpl; try done; by intros [= <-].
Qed.

Lemma delete_task_raised i st e :
  raised (delete_task i st) = Some e ->
  e = OverflowError /\ ~ fits_int64 i.
Proof.
  unfold delete_task, delete_row.
  repeat case_decide; try destruct (select_id i st);
    try case_decide; simpl; try done; by intros [= <-].
Qed.

Lemma add_task_raised d now st : raised (add_task d now st) = None.
Proof. unfold add_task. by destruct (insert_task d now st) as [[]|]. Qed.

Lemma view_tasks_raised f st : raised (view_tasks f st) = None.
Proof.
  unfold view_tasks. destruct (fetch_tasks f st); [|done].
  by destruct (filter_given f).
Qed.

Lemma invoke_next (e : Effect) :
  (invoke e).2 = match raised e with Some x => Raise x | None => Continue end.
Proof. done. Qed.

(** An iteration breaks out of the loop on [exit] only. *)
Lemma main_iteration_break line now st :
  (main_iteration line now st).2 = Break ->
  exists l, split1 (lower (strip line)) = "exit" :: l.
Proof.
  unfold main_iteration.
  destruct (split1_parts (lower (strip line)))
    as [H|[(w & H)|(w & a & H)]]; rewrite H; cbn [List.nth];
    repeat case_decide; subst; try destruct (int a);
    repeat case_decide; try done; eauto;
    rewrite invoke_next, ?add_task_raised, ?view_tasks_raised; try done;
    by destruct (raised _).
Qed.

(** An exception escapes an iteration only from [complete], [pending]
    or [delete] with an integer outside the 64-bit range. *)
Lemma main_iteration_raise line now st e :
  (main_iteration line now st).2 = Raise e ->
  e = OverflowError /\
  exists command arg task_id,
    split1 (lower (strip line)) = [command; arg] /\ takes_id command /\
    int arg = Some task_id /\ ~ fits_int64 task_id.
Proof.
  unfold main_iteration, takes_id.
  destruct (split1_parts (lower (strip line)))
    as [H|[(w & H)|(w & a & H)]]; rewrite H; cbn [List.nth];
    repeat case_decide; subst; try destruct (int a) as [i|] eqn:Hint;
    repeat case_decide; try done;
    rewrite invoke_next, ?add_task_raised, ?view_tasks_raised; try done;
    destruct (raised _) as [x|] eqn:Hx; try done; intros [= <-];
    (apply update_task_status_raised in Hx as [-> ?]
     || apply delete_task_raised in Hx as [-> ?]);
    (split; [done|]); eexists _, a, i; (split; [reflexivity|]); tauto.
Qed.

(** Every other input is answered and the loop goes on: a line that is
    blank, an unknown command, [add] without a description, [view]
    with a filter that is no status, and a command that takes an id
    without one or with something that is no integer. *)
Lemma main_iteration_malformed line now st :
  (strip line = "" ->
     main_iteration line now st = (st, [], Continue)) /\
  (forall command l,
     split1 (lower (strip line)) = command :: l -> ~ known_command command ->
     main_iteration line now st = (st, [UnknownCommand command], Continue)) /\
  (split1 (lower (strip line)) = ["add"] ->
     main_iteration line now st = (st, [ProvideDescription], Continue)) /\
  (forall arg,
     split1 (lower (strip line)) = ["view"; arg] ->
     ~ (lower arg = "pending" \/ lower arg = "completed") ->
     main_iteration line now st
     = (st, [FilterNotAllowed (lower arg)], Continue)) /\
  (forall command,
     split1 (lower (strip line)) = [command] -> takes_id command ->
     main_iteration line now st = (st, [ProvideTaskId command], Continue)) /\
  (forall command arg,
     split1 (lower (strip line)) = [command; arg] -> takes_id command ->
     int arg = None ->
     main_iteration line now st
     = (st, [IdMustBeNumber arg command], Continue)).
Proof.
  split; [apply main_iteration_blank|].
  split; [intros ??; apply main_iteration_unknown|].
  split; [apply main_iteration_add_alone|].
  split; [intros ?; apply main_iteration_view_bad_filter|].
  split; [intros ?; apply main_iteration_id_missing|].
  intros ??. apply main_iteration_id_not_integer.
Qed.

(** The loop ends with the farewell only when some line says [exit]. *)
Lemma main_loop_exited input st :
  (main_loop input st).2 = Exited ->
  exists line now l,
    (line, now) ∈ input /\ split1 (lower (strip line)) = "exit" :: l.
Proof.
  revert st. induction input as [|[line now] input IH]; intros st; [done|].
  cbn [main_loop].
  destruct (main_iteration line now st) as [[st' out] nxt] eqn:Hit.
  destruct nxt as [| |e].
  - destruct (main_loop input st') as [[st'' out'] t] eqn:Hl. simpl.
    intros ->. specialize (IH st'). rewrite Hl in IH.
    destruct (IH eq_refl) as (line' & now' & l & Hin & Hs).
    exists line', now', l. split; [by right|done].
  - intros _.
    destruct (main_iteration_break line now st) as [l Hs]; [by rewrite Hit|].
    exists line, now, l. split; [by left|done].
  - done.
Qed.

End termination.

(** C9, at the line [delete 9223372036854775808]: the id is an integer,
    the line is well formed, and yet the loop prints nothing and ends
    there with an uncaught [OverflowError], whatever lines follow. *)
Theorem loop_ended_by_wide_id (now : Z) (rest : list (string * Z)) (st : Store) :
  main_loop (("delete 9223372036854775808", now) :: rest) st
  = (st, [], Uncaught OverflowError).
Proof.
  assert (main_iteration "delete 9223372036854775808" now st
          = (st, [], Raise OverflowError)) as H.
  { rewrite (main_iteration_id _ _ _ "delete" "9223372036854775808"
               9223372036854775808);
      [|reflexivity|right; by right|reflexivity].
    rewrite decide_True by done.
    rewrite delete_task_overflow; [done|].
    unfold fits_int64, MAX_ROWID. lia. }
  cbn [main_loop]. by rewrite H.
Qed.

(** * Further properties of the script *)

(** ** The four functions *)

Section effects.
Implicit Types (st : Store) (i : Z) (t : Task) (s : string).

Lemma update_status_absent s i st :
  i ∉ ids st -> (update_status s i st).1 = st.
Proof.
  intros Hnin. destruct st as [l n]. unfold update_status, ids in *. simpl in *.
  f_equal. induction l as [|t l IH]; [done|].
  rewrite fmap_cons. rewrite fmap_cons in Hnin.
  apply not_elem_of_cons in Hnin as [Hne Hnin].
  rewrite decide_False by done. by rewrite IH.
Qed.

Lemma delete_row_absent i st : i ∉ ids st -> (delete_row i st).1 = st.
Proof.
  intros Hnin. destruct st as [l n]. unfold delete_row, ids in *. simpl in *.
  f_equal. induction l as [|t l IH]; [done|].
  rewrite fmap_cons in Hnin. apply not_elem_of_cons in Hnin as [Hne Hnin].
  rewrite filter_cons, decide_True by done. by rewrite IH.
Qed.

(** The table after [update_task_status], whether the id is there or
    not. *)
Lemma db_update_task_status i s st :
  valid_status s -> fits_int64 i ->
  db (update_task_status i s st) = (update_status s i st).1.
Proof.
  intros Hs Hi. destruct (decide (i ∈ ids st)) as [Hin|Hnin].
  - by rewrite update_task_status_found.
  - rewrite update_task_status_missing by done. cbn [db].
    by rewrite update_status_absent.
Qed.

Lemma db_delete_task i st :
  fits_int64 i -> db (delete_task i st) = (delete_row i st).1.
Proof.
  intros Hi. destruct (decide (i ∈ ids st)) as [Hin|Hnin].
  - by rewrite delete_task_found.
  - rewrite delete_task_missing by done. cbn [db].
    by rewrite delete_row_absent.
Qed.

Lemma update_status_twice s1 s2 i st :
  (update_status s2 i (update_status s1 i st).1).1 = (update_status s2 i st).1.
Proof.
  unfold update_status; simpl. f_equal.
  rewrite <- list_fmap_compose. apply list_fmap_ext. intros _ t _. simpl.
  destruct (decide (id t = i)) as [Hi|Hi]; simpl;
    [by rewrite decide_True|by rewrite decide_False].
Qed.

End effects.

(** X1. The two messages that hedge, "status was already ... or task
    not found during update" and "not found during deletion", are never
    printed, whatever the table and the arguments: a row the SELECT
    found is a row the UPDATE or DELETE counts. *)
Theorem hedging_messages_never_printed (i : Z) (s : string) (st : Store) :
  (forall j s', AlreadyOrNotFound j s' ∉ printed (update_task_status i s st)) /\
  (forall j, NotFoundDuringDeletion j ∉ printed (delete_task i st)).
Proof.
  split.
  - intros j s' Hin.
    destruct (decide (valid_status s)) as [Hs|Hs];
      [|rewrite update_task_status_invalid in Hin by done].
    1: destruct (decide (fits_int64 i)) as [Hi|Hi];
      [|rewrite update_task_status_overflow in Hin by done].
    1: destruct (decide (i ∈ ids st)) as [Hi'|Hi'];
      [rewrite update_task_status_found in Hin by done
      |rewrite update_task_status_missing in Hin by done].
    all: simpl in Hin;
      repeat (apply elem_of_cons in Hin as [Hin|Hin]; [discriminate Hin|]);
      by apply elem_of_nil in Hin.
  - intros j Hin.
    destruct (decide (fits_int64 i)) as [Hi|Hi];
      [|rewrite delete_task_overflow in Hin by done].
    1: destruct (decide (i ∈ ids st)) as [Hi'|Hi'];
      [rewrite delete_task_found in Hin by done
      |rewrite delete_task_missing in Hin by done].
    all: simpl in Hin;
      repeat (apply elem_of_cons in Hin as [Hin|Hin]; [discriminate Hin|]);
      by apply elem_of_nil in Hin.
Qed.

Lemma update_status_same (st : Store) (i : Z) (s : string) :
  (forall t, t ∈ rows st -> id t = i -> status t = s) ->
  (update_status s i st).1 = st.
Proof.
  destruct st as [l n]. unfold update_status. simpl. intros Hs. f_equal.
  rewrite <- (list_fmap_id l) at 2. apply list_fmap_ext.
  intros k t Ht%list_elem_of_lookup_2. case_decide as Hi; [|done].
  rewrite <- (Hs t Ht Hi). by destruct t.
Qed.

(** X2. The last status written wins: setting a status after any other
    [update_task_status] of the same id has the effect, table and
    message, of setting it at once.  So setting a task to another
    status and then back to the status its rows had restores the
    table. *)
Theorem setStatus_last_write_wins (i : Z) (s1 s2 : string) (st : Store) :
  valid_status s2 ->
  update_task_status i s2 (db (update_task_status i s1 st))
  = update_task_status i s2 st /\
  ((forall t, t ∈ rows st -> id t = i -> status t = s2) ->
   db (update_task_status i s2 (db (update_task_status i s1 st))) = st).
Proof.
  intros Hs2.
  assert (update_task_status i s2 (db (update_task_status i s1 st))
          = update_task_status i s2 st) as Heq.
  { destruct (decide (valid_status s1)) as [Hs1|Hs1];
      [|by rewrite (update_task_status_invalid i s1)].
    destruct (decide (fits_int64 i)) as [Hi|Hi];
      [|by rewrite (update_task_status_overflow i s1)].
    rewrite (db_update_task_status i s1) by done.
    destruct (decide (i ∈ ids st)) as [Hin|Hnin].
    - rewrite !update_task_status_found; rewrite ?ids_update_status; try done.
      by rewrite update_status_twice.
    - by rewrite update_status_absent. }
  split; [done|]. intros Hsame. rewrite Heq.
  destruct (decide (fits_int64 i)) as [Hi|Hi];
    [|by rewrite update_task_status_overflow].
  rewrite db_update_task_status by done. by apply update_status_same.
Qed.

Lemma setStatus_last_write_wins_witness :
  let st := mkStore [mkTask 1 "buy milk" "pending" 100; mkTask 2 "call" "completed" 100] 2 in
  valid_status "pending" /\
  (forall t, t ∈ rows st -> id t = 1 -> status t = "pending") /\
  db (update_task_status 1 "pending" (db (update_task_status 1 "completed" st))) = st.
Proof.
  intros st.
  assert (valid_status "pending") as H by by_decide.
  assert (forall t, t ∈ rows st -> id t = 1 -> status t = "pending") as H'.
  { intros t Ht Hid.
    repeat (apply elem_of_cons in Ht as [->|Ht]; [by compute in Hid|]).
    by apply elem_of_nil in Ht. }
  split; [exact H|]. split; [exact H'|].
  exact (proj2 (setStatus_last_write_wins 1 "completed" "pending" st H) H').
Defined.

(** X3. No call rewrites a task: a row of the table after a call is
    either the row [add_task] has just inserted, with the next id,
    status pending and the time of the call, or a row that was there
    before with the same id, description and creation time. *)
Theorem call_keeps_descriptions (c : Call) (st : Store) (t : Task) :
  t ∈ rows (db (call c st)) ->
  (exists u, u ∈ rows st /\ id u = id t /\ description u = description t
             /\ created_at u = created_at t) \/
  (exists d now, c = AddTask d now /\ next_rowid st <= MAX_ROWID /\
                 t = mkTask (next_rowid st) d "pending" now).
Proof.
  assert (forall u, u ∈ rows st ->
            exists v, v ∈ rows st /\ id v = id u /\ description v = description u
                      /\ created_at v = created_at u) as Hsame by eauto.
  destruct c as [d now|f|i s|i]; simpl.
  - destruct (decide (next_rowid st <= MAX_ROWID)) as [Hr|Hr].
    + rewrite add_task_ok by done. simpl.
      intros [Ht| ->%list_elem_of_singleton]%elem_of_app; [left; auto|].
      right. by exists d, now.
    + rewrite add_task_full by done. simpl. left. auto.
  - rewrite view_tasks_db. left. auto.
  - destruct (decide (valid_status s)) as [Hs|Hs];
      [|rewrite update_task_status_invalid by done; left; auto].
    destruct (decide (fits_int64 i)) as [Hi|Hi];
      [|rewrite update_task_status_overflow by done; left; auto].
    rewrite db_update_task_status by done.
    intros (u & Hu & ->)%elem_of_update_status. left. exists u.
    by destruct (decide (id u = i)).
  - destruct (decide (fits_int64 i)) as [Hi|Hi];
      [|rewrite delete_task_overflow by done; left; auto].
    rewrite db_delete_task by done. simpl.
    intros [_ Ht]%list_elem_of_filter. left. auto.
Qed.

Lemma call_keeps_descriptions_witness :
  let st := mkStore [mkTask 1 "buy milk" "pending" 100] 1 in
  let t := mkTask 1 "buy milk" "completed" 100 in
  t ∈ rows (db (call (UpdateTaskStatus 1 "completed") st)) /\
  ((exists u, u ∈ rows st /\ id u = id t /\ description u = description t
              /\ created_at u = created_at t) \/
   (exists d now, UpdateTaskStatus 1 "completed" = AddTask d now /\
                  next_rowid st <= MAX_ROWID /\
                  t = mkTask (next_rowid st) d "pending" now)).
Proof.
  intros st t.
  assert (t ∈ rows (db (call (UpdateTaskStatus 1 "completed") st))) as H
    by by_decide.
  split; [exact H|].
  exact (call_keeps_descriptions (UpdateTaskStatus 1 "completed") st t H).
Defined.

(** X4. [view_tasks] only reads: the table is as before and nothing is
    raised.  It prints one message: "no tasks" for an empty table and
    no filter, "no tasks with status s" when a filter is given and no
    row has that status, and otherwise the list, which holds the
    selected rows and only them. *)
Theorem view_tasks_reads_and_reports (f : option string) (st : Store) :
  db (view_tasks f st) = st /\ raised (view_tasks f st) = None /\
  (filter_given f = None -> rows st = [] ->
     printed (view_tasks f st) = [NoTasks]) /\
  (forall s, filter_given f = Some s ->
     (forall t, t ∈ rows st -> status t <> s) ->
     printed (view_tasks f st) = [NoTasksWithStatus s]) /\
  (forall t, t ∈ where_status f (rows st) ->
     exists l, printed (view_tasks f st) = [ToDoList l] /\
               l ≡ₚ where_status f (rows st)).
Proof.
  split; [apply view_tasks_db|].
  split; [unfold view_tasks; destruct (fetch_tasks f st); [|done];
          by destruct (filter_given f)|].
  assert (fetch_tasks f st ≡ₚ where_status f (rows st)) as Hp
    by apply order_by_perm.
  unfold view_tasks. split; [|split].
  - intros Hf Hrows. unfold fetch_tasks, where_status.
    by rewrite Hf, Hrows.
  - intros s Hf Hnone.
    assert (where_status f (rows st) = []) as Hw.
    { unfold where_status. rewrite Hf.
      destruct (filter _ _) as [|t l] eqn:Hfl; [done|].
      assert (t ∈ filter (fun t => status t = s) (rows st)) as Ht
        by (rewrite Hfl; left).
      apply list_elem_of_filter in Ht as [Hs Ht]. by apply Hnone in Ht. }
    rewrite Hw in Hp. apply Permutation_nil_r in Hp. by rewrite Hp, Hf.
  - intros t Ht. rewrite <- Hp in Ht.
    destruct (fetch_tasks f st) as [|u l] eqn:Hl;
      [by apply elem_of_nil in Ht|].
    by exists (u :: l).
Qed.

Lemma view_tasks_reads_and_reports_witness :
  let st := mkStore [mkTask 1 "buy milk" "pending" 100] 1 in
  filter_given (Some "completed") = Some "completed" /\
  (forall t, t ∈ rows st -> status t <> "completed") /\
  printed (view_tasks (Some "completed") st) = [NoTasksWithStatus "completed"].
Proof.
  intros st.
  assert (filter_given (Some "completed") = Some "completed") as H1
    by reflexivity.
  assert (forall t, t ∈ rows st -> status t <> "completed") as H2.
  { intros t Ht. apply list_elem_of_singleton in Ht. by subst. }
  split; [exact H1|]. split; [exact H2|].
  destruct (view_tasks_reads_and_reports (Some "completed") st)
    as (_ & _ & _ & H & _).
  exact (H "completed" H1 H2).
Defined.

(** ** The table over a history *)

Section scan_order.
Implicit Types (st : Store) (i : Z) (t : Task) (s : string).

Lemma StronglySorted_filter_list {A} (R : relation A) (P : A -> Prop)
  `{forall x, Decision (P x)} (l : list A) :
  StronglySorted R l -> StronglySorted R (filter P l).
Proof.
  induction 1 as [|x l Hs IH Hx]; [constructor|].
  rewrite filter_cons. case_decide; [|done].
  constructor; [done|].
  apply Forall_forall. intros y [_ Hy]%list_elem_of_filter.
  rewrite Forall_forall in Hx. auto.
Qed.

Lemma StronglySorted_reverse {A} (R : relation A) (l : list A) :
  StronglySorted R l -> StronglySorted (flip R) (reverse l).
Proof.
  induction 1 as [|x l Hs IH Hx]; [constructor|].
  rewrite reverse_cons. apply StronglySorted_app_2; [|done|repeat constructor].
  intros y z Hy ->%list_elem_of_singleton.
  apply (proj1 (elem_of_reverse _ _)) in Hy.
  rewrite Forall_forall in Hx. unfold flip. auto.
Qed.

Lemma call_keeps_scan_order c st :
  StronglySorted Z.lt (ids st) -> StronglySorted Z.lt (ids (db (call c st))).
Proof.
  intros Hs. destruct c as [d now|f|i s|i]; simpl.
  - destruct (decide (next_rowid st <= MAX_ROWID)) as [Hr|Hr];
      [rewrite add_task_ok by done|by rewrite add_task_full].
    unfold ids in *. simpl. rewrite fmap_app.
    apply StronglySorted_app_2; [|done|repeat constructor].
    intros j k (t & -> & Ht)%list_elem_of_fmap ->%list_elem_of_singleton.
    apply max_rowid_ge in Ht. unfold next_rowid. simpl. lia.
  - by rewrite view_tasks_db.
  - destruct (decide (valid_status s)) as [Hv|Hv];
      [|by rewrite update_task_status_invalid].
    destruct (decide (fits_int64 i)) as [Hi|Hi];
      [|by rewrite update_task_status_overflow].
    by rewrite db_update_task_status, ids_update_status.
  - destruct (decide (fits_int64 i)) as [Hi|Hi];
      [|by rewrite delete_task_overflow].
    rewrite db_delete_task, ids_delete_row by done.
    by apply StronglySorted_filter_list.
Qed.

Lemma calls_keep_scan_order_aux cs :
  StronglySorted Z.lt (ids (calls cs empty_db).1).
Proof.
  induction cs as [|c cs IH] using rev_ind; [constructor|].
  rewrite calls_snoc. by apply call_keeps_scan_order.
Qed.

(** With rows of increasing [created_at] the insertion of ORDER BY
    turns the scan round. *)
Lemma order_by_oldest_first l :
  strictly_oldest_first l -> order_by_created_at_desc l = reverse l.
Proof.
  induction 1 as [|t l Hs IH Ht]; [done|].
  simpl. rewrite IH, reverse_cons.
  assert (Forall (fun u => created_at t < created_at u) (reverse l)) as Hr.
  { apply Forall_forall. intros u Hu.
    apply (proj1 (elem_of_reverse _ _)) in Hu.
    rewrite Forall_forall in Ht. auto. }
  clear -Hr. induction Hr as [|u k Hu _ IHk]; [done|].
  simpl. rewrite decide_False by lia. by rewrite IHk.
Qed.

End scan_order.

(** X5. The rows of the table are in increasing order of id, which is
    the order a scan of the table delivers: a sequence of calls on a
    table in that order leaves it so, and the ids of the rows are then
    pairwise distinct. *)
Theorem calls_keep_scan_order (cs : list Call) (st : Store) :
  StronglySorted Z.lt (ids st) ->
  StronglySorted Z.lt (ids (calls cs st).1) /\ NoDup (ids (calls cs st).1).
Proof.
  intros Hs.
  assert (StronglySorted Z.lt (ids (calls cs st).1)) as H.
  { induction cs as [|c cs IH] using rev_ind; [done|].
    rewrite calls_snoc. by apply call_keeps_scan_order. }
  split; [done|].
  induction H as [|i l Hl IH Hi]; constructor; [|done].
  intros Hin. rewrite Forall_forall in Hi. apply Hi in Hin. lia.
Qed.

Lemma calls_keep_scan_order_witness :
  let st := mkStore [mkTask 2 "call" "completed" 100; mkTask 5 "write" "pending" 90] 7 in
  StronglySorted Z.lt (ids st) /\
  ids (calls [AddTask "a" 100; DeleteTask 5; AddTask "b" 100] st).1 = [2; 8; 9] /\
  StronglySorted Z.lt (ids (calls [AddTask "a" 100; DeleteTask 5; AddTask "b" 100] st).1).
Proof.
  intros st.
  assert (StronglySorted Z.lt (ids st)) as H by by_decide.
  split; [exact H|]. split; [reflexivity|].
  exact (proj1 (calls_keep_scan_order
                  [AddTask "a" 100; DeleteTask 5; AddTask "b" 100] st H)).
Defined.

Section ledger.
Implicit Types (st : Store) (out : list Msg) (cs : list Call) (c : Call).

(** A call either leaves the counter and reports no addition, or takes
    the next id and reports it. *)
Lemma call_counter c st :
  (seq (db (call c st)) = seq st /\ added_ids (printed (call c st)) = []) \/
  (seq (db (call c st)) = next_rowid st /\
   added_ids (printed (call c st)) = [next_rowid st]).
Proof.
  destruct c as [d now|f|i s|i]; simpl.
  - destruct (decide (next_rowid st <= MAX_ROWID)) as [Hr|Hr];
      [rewrite add_task_ok by done; by right
      |rewrite add_task_full by done; by left].
  - left. rewrite view_tasks_db. split; [done|].
    unfold view_tasks. destruct (fetch_tasks f st); [|done].
    by destruct (filter_given f).
  - left.
    destruct (decide (valid_status s)) as [Hv|Hv];
      [|by rewrite update_task_status_invalid].
    destruct (decide (fits_int64 i)) as [Hi|Hi];
      [|by rewrite update_task_status_overflow].
    destruct (decide (i ∈ ids st)) as [Hin|Hnin];
      [by rewrite update_task_status_found
      |by rewrite update_task_status_missing].
  - left.
    destruct (decide (fits_int64 i)) as [Hi|Hi];
      [|by rewrite delete_task_overflow].
    destruct (decide (i ∈ ids st)) as [Hin|Hnin];
      [by rewrite delete_task_found|by rewrite delete_task_missing].
Qed.

Lemma added_ids_consecutive cs :
  added_ids (calls cs empty_db).2 = seqZ 1 (seq (calls cs empty_db).1).
Proof.
  induction cs as [|c cs IH] using rev_ind; [done|].
  pose proof (history_inv_calls cs) as H.
  pose proof (inv_seq _ _ _ H) as Hseq.
  pose proof (next_rowid_history _ _ _ H) as Hn.
  rewrite calls_snoc. cbn [fst snd].
  unfold added_ids in *. rewrite omap_app, IH.
  destruct (call_counter c (calls cs empty_db).1) as [[-> Ha]|[-> Ha]];
    unfold added_ids in Ha; rewrite Ha.
  - by rewrite app_nil_r.
  - rewrite Hn, seqZ_app by lia. f_equal.
    rewrite seqZ_cons, seqZ_nil by lia. f_equal. lia.
Qed.

End ledger.

(** X6. On a table that starts empty the ids are handed out one after
    the other from 1: after any sequence of calls the ids reported as
    added are 1, 2, ... up to the counter, every row has an id in that
    range, and the next [add_task] reports the counter plus one. *)
Theorem ids_issued_consecutively (cs : list Call) :
  let st := (calls cs empty_db).1 in
  added_ids (calls cs empty_db).2 = seqZ 1 (seq st) /\
  Forall (fun i => 1 <= i <= seq st) (ids st) /\
  forall d now, seq st < MAX_ROWID ->
    printed (add_task d now st) = [TaskAdded d (seq st + 1)].
Proof.
  intros st. pose proof (history_inv_calls cs) as H. fold st in H.
  split; [apply added_ids_consecutive|]. split.
  - apply Forall_forall. intros i (t & -> & Ht)%list_elem_of_fmap.
    by eapply ids_bounded.
  - intros d now Hlt. pose proof (next_rowid_history _ _ _ H) as Hn.
    rewrite add_task_ok by lia. simpl. by rewrite Hn.
Qed.

Lemma ids_issued_consecutively_witness :
  let cs := [AddTask "a" 100; AddTask "b" 100; DeleteTask 2; AddTask "c" 101] in
  seq (calls cs empty_db).1 < MAX_ROWID /\
  added_ids (calls cs empty_db).2 = [1; 2; 3] /\
  printed (add_task "d" 102 (calls cs empty_db).1) = [TaskAdded "d" 4].
Proof.
  intros cs.
  assert (seq (calls cs empty_db).1 < MAX_ROWID) as H by by_decide.
  split; [exact H|].
  destruct (ids_issued_consecutively cs) as (Ha & _ & Hnext).
  split; [rewrite Ha; reflexivity|].
  exact (Hnext "d" 102 H).
Defined.

Section clock.
Implicit Types (st : Store) (cs : list Call) (c : Call) (t : Task).

Lemma oldest_first_same_second l t u :
  strictly_oldest_first l -> t ∈ l -> u ∈ l ->
  created_at t = created_at u -> t = u.
Proof.
  induction 1 as [|x l Hs IH Hx]; [by intros ?%elem_of_nil|].
  rewrite Forall_forall in Hx.
  intros [->|Ht]%elem_of_cons [->|Hu]%elem_of_cons Heq; auto.
  - apply Hx in Hu. lia.
  - apply Hx in Ht. lia.
Qed.

Lemma call_keeps_oldest_first c st :
  strictly_oldest_first (rows st) ->
  (forall d now t, c = AddTask d now -> t ∈ rows st -> created_at t < now) ->
  strictly_oldest_first (rows (db (call c st))).
Proof.
  intros Hs Hnow. destruct c as [d now|f|i s|i]; simpl.
  - destruct (decide (next_rowid st <= MAX_ROWID)) as [Hr|Hr];
      [rewrite add_task_ok by done|by rewrite add_task_full].
    simpl. apply StronglySorted_app_2; [|done|repeat constructor].
    intros t u Ht ->%list_elem_of_singleton. simpl. by eapply Hnow.
  - by rewrite view_tasks_db.
  - destruct (decide (valid_status s)) as [Hv|Hv];
      [|by rewrite update_task_status_invalid].
    destruct (decide (fits_int64 i)) as [Hi|Hi];
      [|by rewrite update_task_status_overflow].
    rewrite db_update_task_status by done. simpl.
    eapply StronglySorted_fmap; [|exact Hs].
    intros t u Htu. simpl in *. by repeat case_decide.
  - destruct (decide (fits_int64 i)) as [Hi|Hi];
      [|by rewrite delete_task_overflow].
    rewrite db_delete_task by done. simpl.
    by apply StronglySorted_filter_list.
Qed.

Lemma calls_oldest_first cs :
  StronglySorted Z.lt (add_times cs) ->
  strictly_oldest_first (rows (calls cs empty_db).1).
Proof.
  induction cs as [|c cs IH] using rev_ind; [constructor|].
  unfold add_times. rewrite omap_app.
  intros (Hlt & Hcs & _)%StronglySorted_app.
  rewrite calls_snoc. cbn [fst]. apply call_keeps_oldest_first; [by apply IH|].
  intros d now t -> Ht.
  apply (inv_created _ _ _ (history_inv_calls cs)) in Ht.
  apply Hlt; [|by left].
  apply list_elem_of_omap. by exists (AddTask (description t) (created_at t)).
Qed.

End clock.

(** X7. When the clock advances from one addition to the next, on a
    table that starts empty, the unfiltered listing is the table read
    backwards: strictly newest first, which is highest id first.  No
    two rows share a second then, so this is the one answer the query
    has. *)
Theorem listing_reversed_when_clock_advances (cs : list Call) :
  StronglySorted Z.lt (add_times cs) ->
  let st := (calls cs empty_db).1 in
  fetch_tasks None st = reverse (rows st) /\
  strictly_newest_first (fetch_tasks None st) /\
  StronglySorted (flip Z.lt) (id <$> fetch_tasks None st) /\
  forall l, query_result None st l -> l = reverse (rows st).
Proof.
  intros Hclock st.
  pose proof (calls_oldest_first cs Hclock) as Hold. fold st in Hold.
  assert (fetch_tasks None st = reverse (rows st)) as Heq
    by by apply order_by_oldest_first.
  assert (StronglySorted Z.lt (ids st)) as Hids.
  { apply calls_keep_scan_order_aux. }
  split; [done|]. rewrite Heq.
  split; [by apply (StronglySorted_reverse _ _ Hold)|].
  split; [rewrite fmap_reverse; by apply StronglySorted_reverse|].
  intros l [Hp Hs].
  apply (StronglySorted_unique_strong
           (fun t u => created_at u <= created_at t)); [|done| |].
  - intros t u Ht Hu Htu Hut.
    apply (oldest_first_same_second (rows st)); [done| | |lia].
    + by rewrite Hp in Ht.
    + by apply (proj1 (elem_of_reverse _ _)) in Hu.
  - rewrite <- Heq. apply order_by_sorted.
  - rewrite Hp. simpl. by rewrite reverse_Permutation.
Qed.

Lemma listing_reversed_when_clock_advances_witness :
  let cs := [AddTask "a" 100; AddTask "b" 101; UpdateTaskStatus 1 "completed";
             AddTask "c" 107; DeleteTask 2] in
  StronglySorted Z.lt (add_times cs) /\
  fetch_tasks None (calls cs empty_db).1
  = [mkTask 3 "c" "pending" 107; mkTask 1 "a" "completed" 100].
Proof.
  intros cs.
  assert (StronglySorted Z.lt (add_times cs)) as H by by_decide.
  split; [exact H|].
  rewrite (proj1 (listing_reversed_when_clock_advances cs H)).
  reflexivity.
Defined.

(** ** Calls about different tasks *)

Section independence.
Implicit Types (st : Store) (i j : Z) (s : string).

(** What is printed and raised for an id depends on the table only
    through the presence of the id. *)
Lemma update_task_status_report i s st st' :
  (i ∈ ids st <-> i ∈ ids st') ->
  printed (update_task_status i s st) = printed (update_task_status i s st') /\
  raised (update_task_status i s st) = raised (update_task_status i s st').
Proof.
  intros Hiff.
  destruct (decide (valid_status s)) as [Hv|Hv];
    [|by rewrite !update_task_status_invalid].
  destruct (decide (fits_int64 i)) as [Hi|Hi];
    [|by rewrite !update_task_status_overflow].
  destruct (decide (i ∈ ids st)) as [Hin|Hnin].
  - rewrite !update_task_status_found; try done. by apply Hiff.
  - rewrite !update_task_status_missing; try done. by rewrite <- Hiff.
Qed.

Lemma delete_task_report i st st' :
  (i ∈ ids st <-> i ∈ ids st') ->
  printed (delete_task i st) = printed (delete_task i st') /\
  raised (delete_task i st) = raised (delete_task i st').
Proof.
  intros Hiff.
  destruct (decide (fits_int64 i)) as [Hi|Hi];
    [|by rewrite !delete_task_overflow].
  destruct (decide (i ∈ ids st)) as [Hin|Hnin].
  - rewrite !delete_task_found; try done. by apply Hiff.
  - rewrite !delete_task_missing; try done. by rewrite <- Hiff.
Qed.

Lemma call_report c st st' j :
  target c = Some j -> (j ∈ ids st <-> j ∈ ids st') ->
  printed (call c st) = printed (call c st') /\
  raised (call c st) = raised (call c st').
Proof.
  destruct c as [| |i s|i]; simpl; intros [= <-]; try done.
  - apply update_task_status_report.
  - apply delete_task_report.
Qed.

(** A call about one id keeps every other id in or out of the table. *)
Lemma call_keeps_other_ids c st i j :
  target c = Some i -> i <> j ->
  j ∈ ids (db (call c st)) <-> j ∈ ids st.
Proof.
  destruct c as [| |k s|k]; simpl; intros [= <-] Hne; try done.
  - destruct (decide (valid_status s)) as [Hv|Hv];
      [|by rewrite update_task_status_invalid].
    destruct (decide (fits_int64 k)) as [Hi|Hi];
      [|by rewrite update_task_status_overflow].
    by rewrite db_update_task_status, ids_update_status.
  - destruct (decide (fits_int64 k)) as [Hi|Hi];
      [|by rewrite delete_task_overflow].
    rewrite db_delete_task, ids_delete_row, list_elem_of_filter by done.
    split; [by intros [_ ?]|intros ?; split; [congruence|done]].
Qed.

Lemma filter_all {A} (P : A -> Prop) `{forall x, Decision (P x)} (l : list A) :
  (forall x, x ∈ l -> P x) -> filter P l = l.
Proof.
  induction l as [|x l IH]; intros HP; [done|].
  rewrite filter_cons, decide_True by (apply HP; left).
  rewrite IH; [done|]. intros; apply HP; by right.
Qed.

Lemma db_call_rows c st i :
  target c = Some i ->
  db (call c st) = mkStore (filter (row_kept c) (row_map c <$> rows st)) (seq st).
Proof.
  destruct st as [l n].
  destruct c as [| |k s|k]; cbn [target call]; intros [= <-]; try done.
  - rewrite filter_all by done. cbn [rows seq].
    destruct (decide (valid_status s)) as [Hv|Hv].
    2: { rewrite update_task_status_invalid by done. cbn [db]. f_equal.
         rewrite <- (list_fmap_id l) at 1. apply list_fmap_ext.
         intros _ t _. unfold row_map. rewrite decide_False; [done|tauto]. }
    destruct (decide (fits_int64 k)) as [Hi|Hi].
    2: { rewrite update_task_status_overflow by done. cbn [db]. f_equal.
         rewrite <- (list_fmap_id l) at 1. apply list_fmap_ext.
         intros _ t _. unfold row_map. rewrite decide_False; [done|tauto]. }
    rewrite db_update_task_status by done. unfold update_status.
    cbn [fst rows seq]. f_equal. apply list_fmap_ext. intros _ t _.
    unfold row_map.
    destruct (decide (id t = k)) as [Hk|Hk];
      [by rewrite decide_True|rewrite decide_False; [done|tauto]].
  - cbn [rows seq].
    assert (row_map (DeleteTask k) <$> l = l) as -> by apply list_fmap_id.
    destruct (decide (fits_int64 k)) as [Hi|Hi].
    2: { rewrite delete_task_overflow by done. cbn [db]. f_equal.
         rewrite filter_all; [done|]. intros t _. simpl. tauto. }
    rewrite db_delete_task by done. unfold delete_row. cbn [fst rows seq].
    f_equal. apply list_filter_iff. intros t. simpl. tauto.
Qed.

Lemma filter_fmap_comm {A} (P : A -> Prop) `{forall x, Decision (P x)}
  (f : A -> A) (l : list A) :
  (forall x, P (f x) <-> P x) -> filter P (f <$> l) = f <$> filter P l.
Proof.
  intros HP. induction l as [|x l IH]; [done|].
  rewrite fmap_cons, !filter_cons.
  destruct (decide (P x)) as [Hx|Hx].
  - rewrite decide_True by by apply HP. by rewrite fmap_cons, IH.
  - rewrite decide_False by by rewrite HP. done.
Qed.

End independence.

Section commute.
Implicit Types (st : Store) (c : Call) (t : Task).

Lemma row_map_id c t : id (row_map c t) = id t.
Proof. destruct c; simpl; try done. by case_decide. Qed.

Lemma row_kept_map c c' t : row_kept c (row_map c' t) <-> row_kept c t.
Proof. destruct c; simpl; try done. by rewrite row_map_id. Qed.

Lemma row_map_comm c1 c2 i j t :
  target c1 = Some i -> target c2 = Some j -> i <> j ->
  row_map c2 (row_map c1 t) = row_map c1 (row_map c2 t).
Proof.
  destruct c1 as [| |i1 s1|i1], c2 as [| |i2 s2|i2]; simpl;
    intros [= <-] [= <-] Hne; try done.
  repeat (case_decide; simpl in * ); try done;
    exfalso; repeat match goal with H : _ /\ _ |- _ => destruct H end;
    first [congruence|tauto].
Qed.

Lemma filter_filter_comm {A} (P Q : A -> Prop) `{forall x, Decision (P x)}
  `{forall x, Decision (Q x)} (l : list A) :
  filter P (filter Q l) = filter Q (filter P l).
Proof.
  induction l as [|x l IH]; [done|].
  rewrite !filter_cons.
  destruct (decide (P x)), (decide (Q x));
    rewrite ?filter_cons, ?decide_True, ?decide_False by done; by rewrite ?IH.
Qed.

End commute.

(** X8. Calls about different ids do not interfere: for two calls of
    [update_task_status] or [delete_task] with different ids, the table
    after both is the same in either order, and what the second prints
    and raises is what it would have printed and raised alone. *)
Theorem calls_on_different_ids_commute (c1 c2 : Call) (st : Store) (i j : Z) :
  target c1 = Some i -> target c2 = Some j -> i <> j ->
  db (call c2 (db (call c1 st))) = db (call c1 (db (call c2 st))) /\
  printed (call c2 (db (call c1 st))) = printed (call c2 st) /\
  raised (call c2 (db (call c1 st))) = raised (call c2 st).
Proof.
  intros H1 H2 Hne. split.
  - rewrite (db_call_rows c2 _ j H2), (db_call_rows c1 st i H1).
    rewrite (db_call_rows c1 _ i H1), (db_call_rows c2 st j H2).
    cbn [rows seq]. f_equal.
    rewrite <- !(filter_fmap_comm (row_kept _) (row_map _))
      by (intros; apply row_kept_map).
    rewrite filter_filter_comm. do 2 f_equal.
    rewrite <- !list_fmap_compose. apply list_fmap_ext. intros _ t _. simpl.
    by apply (row_map_comm c1 c2 i j).
  - apply (call_report c2 _ _ j H2).
    by apply (call_keeps_other_ids c1 st i j).
Qed.

Lemma calls_on_different_ids_commute_witness :
  let st := mkStore [mkTask 1 "buy milk" "pending" 100; mkTask 2 "call" "pending" 100] 2 in
  target (DeleteTask 1) = Some 1 /\
  target (UpdateTaskStatus 2 "completed") = Some 2 /\ 1 <> 2 /\
  db (call (UpdateTaskStatus 2 "completed") (db (call (DeleteTask 1) st)))
  = db (call (DeleteTask 1) (db (call (UpdateTaskStatus 2 "completed") st))).
Proof.
  intros st.
  assert (target (DeleteTask 1) = Some 1) as H1 by reflexivity.
  assert (target (UpdateTaskStatus 2 "completed") = Some 2) as H2 by reflexivity.
  assert (1 <> 2) as H3 by lia.
  split; [exact H1|]. split; [exact H2|]. split; [exact H3|].
  exact (proj1 (calls_on_different_ids_commute
                  (DeleteTask 1) (UpdateTaskStatus 2 "completed") st 1 2 H1 H2 H3)).
Defined.

(** ** The loop as a whole *)

Section dispatch.
Implicit Types (line : string) (now : Z) (st : Store).

Lemma lstrip_strip s : lstrip (strip s) = strip s.
Proof.
  unfold strip. destruct (lstrip s) as [|c y] eqn:Hs; [done|].
  apply lstrip_head in Hs. cbn [rstrip].
  destruct (rstrip y); rewrite ?Hs; cbn [lstrip]; by rewrite Hs.
Qed.

(** No part at all: the line is blank. *)
Lemma split1_nil_blank line :
  split1 (lower (strip line)) = [] <-> strip line = "".
Proof.
  split; [|by intros ->].
  unfold split1. rewrite lstrip_lower, lstrip_strip.
  destruct (strip line) as [|c y]; [done|]. cbn [lower].
  destruct (word _) as [w r]. by destruct (lstrip r).
Qed.

Lemma malformed_iteration line ms now st :
  malformed line ms -> main_iteration line now st = (st, ms, Continue).
Proof.
  destruct 1;
    eauto using main_iteration_blank, main_iteration_unknown,
      main_iteration_add_alone, main_iteration_view_bad_filter,
      main_iteration_id_missing, main_iteration_id_not_integer.
Qed.

Lemma split1_rest_lower line w a :
  split1 (lower (strip line)) = [w; a] -> has_upper a = false.
Proof.
  rewrite split1_lower.
  destruct (split1 (strip line)) as [|w0 [|a0 [|]]]; try done.
  intros [= _ <-]. apply has_upper_lower.
Qed.

(** What an iteration does: it answers a malformed line itself, or it
    says goodbye, or it makes one call. *)
Lemma main_iteration_cases line now st :
  (exists ms, malformed line ms /\
              main_iteration line now st = (st, ms, Continue)) \/
  main_iteration line now st = (st, [Goodbye], Break) \/
  (exists c, loop_call now c /\ (is_ascii line -> call_ascii c) /\
             main_iteration line now st = invoke (call c st)).
Proof.
  assert (forall ms, malformed line ms ->
            exists ms', malformed line ms' /\
              main_iteration line now st = (st, ms', Continue)) as Hm
    by (intros ms H; exists ms; eauto using malformed_iteration).
  destruct (split1_parts (lower (strip line)))
    as [H|[(w & H)|(w & a & H)]].
  - left. apply (Hm []). constructor. by apply split1_nil_blank.
  - destruct (decide (w = "exit")) as [->|Hexit];
      [right; left; by eapply main_iteration_exit|].
    destruct (decide (w = "add")) as [->|Hadd];
      [left; apply (Hm [ProvideDescription]); by constructor|].
    destruct (decide (w = "view")) as [->|Hview].
    { right; right. exists (ViewTasks None). split; [by left|].
      split; [done|]. by apply main_iteration_view. }
    destruct (decide (takes_id w)) as [Hid|Hid];
      [left; apply (Hm [ProvideTaskId w]); by constructor|].
    left. apply (Hm [UnknownCommand w]). econstructor; [done|].
    unfold known_command. tauto.
  - destruct (decide (w = "exit")) as [->|Hexit];
      [right; left; by eapply main_iteration_exit|].
    destruct (decide (w = "add")) as [->|Hadd].
    { right; right. exists (AddTask a now). split; [|split].
      - split; [by eapply split1_rest|]. split; [|done].
        by eapply split1_rest_lower.
      - intros Hl. apply (line_parts_ascii line); [done|].
        rewrite H. right; left.
      - by apply main_iteration_add. }
    destruct (decide (w = "view")) as [->|Hview].
    { destruct (decide (lower a = "pending" \/ lower a = "completed"))
        as [Ha|Ha].
      - right; right. exists (ViewTasks (Some (lower a))). split; [|split].
        + right. destruct Ha as [-> | ->]; auto.
        + done.
        + unfold main_iteration. rewrite H. simpl. by rewrite decide_True.
      - left. apply (Hm [FilterNotAllowed (lower a)]). by constructor. }
    destruct (decide (takes_id w)) as [Hid|Hid].
    { destruct (int a) as [i|] eqn:Hint;
        [|left; apply (Hm [IdMustBeNumber a w]); by constructor].
      right; right.
      rewrite (main_iteration_id line now st w a i) by done.
      destruct Hid as [->|[->| ->]]; simpl.
      - exists (UpdateTaskStatus i "completed"). split; [by right|done].
      - exists (UpdateTaskStatus i "pending"). split; [by left|done].
      - by exists (DeleteTask i). }
    left. apply (Hm [UnknownCommand w]). econstructor; [done|].
    unfold known_command. tauto.
Qed.

End dispatch.

(** X9. A malformed ASCII line never ends the loop and never touches
    the table: the loop prints the answer to the line, nothing for a
    blank one, and goes on with the lines that follow on the same
    table. *)
Theorem loop_answers_malformed_line
  (line : string) (ms : list Msg) (now : Z) (rest : list (string * Z))
  (st : Store) :
  is_ascii line -> malformed line ms ->
  main_loop ((line, now) :: rest) st
  = ((main_loop rest st).1.1, ms ++ (main_loop rest st).1.2,
     (main_loop rest st).2).
Proof.
  intros _ Hm. cbn [main_loop].
  rewrite (malformed_iteration line ms now st Hm).
  by destruct (main_loop rest st) as [[st' out] t].
Qed.

Lemma loop_answers_malformed_line_witness :
  is_ascii "complete abc" /\
  malformed "complete abc" [IdMustBeNumber "abc" "complete"] /\
  main_loop [("complete abc", 100); ("exit", 101)] empty_db
  = (empty_db, [IdMustBeNumber "abc" "complete"; Goodbye], Exited).
Proof.
  assert (is_ascii "complete abc") as H0 by reflexivity.
  assert (malformed "complete abc" [IdMustBeNumber "abc" "complete"]) as H.
  { apply malformed_id; [reflexivity|by left|reflexivity]. }
  split; [exact H0|]. split; [exact H|].
  rewrite (loop_answers_malformed_line _ _ 100 [("exit", 101)] empty_db H0 H).
  reflexivity.
Defined.

(** X10. On an ASCII line an exception escapes an iteration exactly
    when the line is [complete], [pending] or [delete] with an integer
    of at most 4300 digits outside the signed 64-bit range; the
    iteration has then printed nothing and left the table as it was,
    and the exception is [OverflowError]. *)
Theorem iteration_raises_iff_wide_id (line : string) (now : Z) (st : Store) :
  is_ascii line ->
  ((exists e, (main_iteration line now st).2 = Raise e) <->
   (exists command arg i,
      split1 (lower (strip line)) = [command; arg] /\ takes_id command /\
      int arg = Some i /\ ~ fits_int64 i)) /\
  (forall e, (main_iteration line now st).2 = Raise e ->
     main_iteration line now st = (st, [], Raise OverflowError)).
Proof.
  intros _.
  assert (forall command arg i,
            split1 (lower (strip line)) = [command; arg] -> takes_id command ->
            int arg = Some i -> ~ fits_int64 i ->
            main_iteration line now st = (st, [], Raise OverflowError)) as Hwide.
  { intros command arg i Hs Hc Hint Hi.
    rewrite (main_iteration_id line now st command arg i) by done.
    case_decide; [by rewrite delete_task_overflow|].
    rewrite update_task_status_overflow; [done| |done].
    case_decide; [by right|by left]. }
  split; [split|].
  - intros [e He]. by apply main_iteration_raise in He as [_ ?].
  - intros (command & arg & i & Hs & Hc & Hint & Hi).
    exists OverflowError. by rewrite (Hwide command arg i).
  - intros e (_ & command & arg & i & Hs & Hc & Hint & Hi)%main_iteration_raise.
    by apply (Hwide command arg i).
Qed.

Lemma iteration_raises_iff_wide_id_witness :
  is_ascii "pending -9223372036854775809" /\
  (main_iteration "pending -9223372036854775809" 100 empty_db).2
  = Raise OverflowError /\
  main_iteration "pending -9223372036854775809" 100 empty_db
  = (empty_db, [], Raise OverflowError).
Proof.
  assert (is_ascii "pending -9223372036854775809") as H0 by reflexivity.
  assert ((main_iteration "pending -9223372036854775809" 100 empty_db).2
          = Raise OverflowError) as H by reflexivity.
  split; [exact H0|]. split; [exact H|].
  exact (proj2 (iteration_raises_iff_wide_id _ 100 empty_db H0) OverflowError H).
Defined.

(** X11. Sessions on one database file add up: when a session ends
    because its input ends, a further session on the table it left
    prints and leaves what one session on all the lines would have,
    the existing table being kept by [initialize_database]; after
    [exit] or an escaped exception no further line is read. *)
Theorem sessions_compose (file : option Store) (in1 in2 : list (string * Z)) :
  main file (in1 ++ in2)
  = match main file in1 with
    | (st1, out1, Uncaught EOFError) =>
        ((main (Some st1) in2).1.1, out1 ++ tail (main (Some st1) in2).1.2,
         (main (Some st1) in2).2)
    | r => r
    end.
Proof.
  unfold main. generalize (initialize_database file) as st.
  cbn [initialize_database].
  induction in1 as [|[line now] in1 IH]; intros st.
  - cbn [main_loop app]. by destruct (main_loop in2 st) as [[st' out] t].
  - cbn [main_loop app].
    destruct (main_iteration line now st) as [[st' out] [| |e]] eqn:Hit;
      [|done|].
    2: { destruct (main_iteration_raise line now st e) as [-> _];
           [by rewrite Hit|done]. }
    specialize (IH st').
    destruct (main_loop (in1 ++ in2) st') as [[st2 out2] t2].
    destruct (main_loop in1 st') as [[st1 out1] [|[|]]];
      try (by injection IH as -> -> ->).
    destruct (main_loop in2 st1) as [[st3 out3] t3]. simpl in *.
    injection IH as -> -> ->. by rewrite app_assoc.
Qed.

Section session.
Implicit Types (st : Store) (cs : list Call) (c : Call).

Lemma calls_acc cs st (out : list Msg) :
  foldl (fun '(s, o) c => let e := call c s in (db e, o ++ printed e))
        (st, out) cs
  = ((calls cs st).1, out ++ (calls cs st).2).
Proof.
  induction cs as [|c cs IH] using rev_ind.
  - simpl. by rewrite app_nil_r.
  - rewrite calls_snoc, foldl_snoc, IH. cbn [fst snd].
    by rewrite app_assoc.
Qed.

Lemma calls_cons c cs st :
  calls (c :: cs) st
  = ((calls cs (db (call c st))).1,
     printed (call c st) ++ (calls cs (db (call c st))).2).
Proof. unfold calls at 1. simpl. apply calls_acc. Qed.

Lemma malformed_quiet line ms :
  malformed line ms -> added_ids ms = [] /\ deleted_ids ms = [].
Proof. by destruct 1. Qed.

(** A run of the loop is a sequence of calls, as far as the table and
    the reports of additions and deletions go. *)
Lemma main_loop_calls input st :
  exists cs,
    Forall (fun c => exists now, loop_call now c) cs /\
    (Forall (fun ln => is_ascii ln.1) input -> Forall call_ascii cs) /\
    (main_loop input st).1.1 = (calls cs st).1 /\
    added_ids (main_loop input st).1.2 = added_ids (calls cs st).2 /\
    deleted_ids (main_loop input st).1.2 = deleted_ids (calls cs st).2.
Proof.
  revert st. induction input as [|[line now] input IH]; intros st.
  { by exists []. }
  cbn [main_loop].
  destruct (main_iteration_cases line now st)
    as [(ms & Hm & ->)|[->|(c & Hc & Hca & ->)]].
  - destruct (IH st) as (cs & Hcs & Hasc & Hdb & Ha & Hd).
    destruct (malformed_quiet _ _ Hm) as [Hma Hmd].
    destruct (main_loop input st) as [[st' out] t]. cbn [fst snd] in *.
    exists cs. unfold added_ids, deleted_ids in *.
    rewrite !omap_app, Hma, Hmd. repeat split; try done.
    intros [_ Hin]%Forall_cons. auto.
  - by exists [].
  - unfold invoke. destruct (raised (call c st)) as [x|].
    + exists [c]. rewrite calls_cons. cbn [fst snd calls foldl].
      rewrite app_nil_r. repeat split; try done.
      * constructor; [by exists now|constructor].
      * intros [Hl _]%Forall_cons. constructor; [auto|constructor].
    + destruct (IH (db (call c st))) as (cs & Hcs & Hasc & Hdb & Ha & Hd).
      destruct (main_loop input (db (call c st))) as [[st' out] t].
      cbn [fst snd] in *.
      exists (c :: cs). rewrite calls_cons. cbn [fst snd].
      unfold added_ids, deleted_ids in *. rewrite !omap_app, Ha, Hd.
      repeat split; try done.
      * constructor; [by exists now|done].
      * intros [Hl Hin]%Forall_cons. constructor; auto.
Qed.

End session.

(** X12. After a whole session on ASCII lines that starts without a
    database file, whatever the lines and however the session ends,
    the rows of the table are in increasing order of id with a status
    of pending or completed each, the ids reported as added are 1, 2,
    ... up to the counter, the rows are those of the ids added and not
    deleted, and every description is ASCII, non-empty and free of
    upper-case letters. *)
Theorem session_leaves_table_sound (input : list (string * Z)) :
  Forall (fun ln => is_ascii ln.1) input ->
  let st := (main None input).1.1 in
  let out := (main None input).1.2 in
  StronglySorted Z.lt (ids st) /\
  statuses_valid st /\
  added_ids out = seqZ 1 (seq st) /\
  (forall i, i ∈ ids st <-> i ∈ added_ids out /\ i ∉ deleted_ids out) /\
  Forall (fun t => description t <> "" /\ is_ascii (description t)
                   /\ has_upper (description t) = false)
         (rows st).
Proof.
  intros Hinput. unfold main. cbn [initialize_database].
  destruct (main_loop_calls input empty_db)
    as (cs & Hcs & Hasc & Hdb & Ha & Hd).
  specialize (Hasc Hinput).
  destruct (main_loop input empty_db) as [[st out] t]. cbn [fst snd] in *.
  subst st.
  change (added_ids (Welcome :: out)) with (added_ids out).
  change (deleted_ids (Welcome :: out)) with (deleted_ids out).
  rewrite Ha, Hd.
  pose proof (history_inv_calls cs) as H.
  split; [apply calls_keep_scan_order_aux|].
  split; [apply (inv_status _ _ _ H)|].
  split; [apply added_ids_consecutive|].
  split; [apply (inv_live _ _ _ H)|].
  apply Forall_forall. intros u Hu%(inv_created _ _ _ H).
  rewrite Forall_forall in Hcs, Hasc.
  pose proof (Hasc _ Hu) as Hau. apply Hcs in Hu as [now Hu].
  simpl in Hu, Hau. tauto.
Qed.

Lemma session_leaves_table_sound_witness :
  let input := [("add Buy Milk", 100); ("ADD call", 100); ("delete 1", 101);
                ("complete 2", 102); ("complete 9223372036854775808", 103)] in
  Forall (fun ln => is_ascii ln.1) input /\
  (main None input).1.1 = mkStore [mkTask 2 "call" "completed" 100] 2 /\
  (main None input).2 = Uncaught OverflowError /\
  StronglySorted Z.lt (ids (main None input).1.1).
Proof.
  intros input.
  assert (Forall (fun ln => is_ascii ln.1) input) as H by by_decide.
  split; [exact H|]. split; [reflexivity|]. split; [reflexivity|].
  exact (proj1 (session_leaves_table_sound input H)).
Defined.

(** ** Typing a description or an id *)

Section typing.
Implicit Types (s w d : string) (c : ascii) (p : ascii -> bool).

Lemma all_chars_lstrip p s :
  (forall c, p c = true -> is_space c = false) ->
  all_chars p s = true -> lstrip s = s.
Proof.
  intros Hp. destruct s as [|c s]; [done|]. simpl.
  intros [Hc _]%andb_prop. by rewrite (Hp c Hc).
Qed.

Lemma all_chars_rstrip p s :
  (forall c, p c = true -> is_space c = false) ->
  all_chars p s = true -> rstrip s = s.
Proof.
  intros Hp. induction s as [|c s IH]; [done|]. simpl.
  intros [Hc Hs]%andb_prop. rewrite (IH Hs), (Hp c Hc). by destruct s.
Qed.

Lemma all_chars_strip p s :
  (forall c, p c = true -> is_space c = false) ->
  all_chars p s = true -> strip s = s.
Proof.
  intros Hp Hs. unfold strip.
  by rewrite (all_chars_lstrip p s), (all_chars_rstrip p s).
Qed.

Lemma all_chars_lower p s :
  (forall c, p c = true -> lower_char c = c) ->
  all_chars p s = true -> lower s = s.
Proof.
  intros Hp. induction s as [|c s IH]; [done|]. simpl.
  intros [Hc Hs]%andb_prop. by rewrite (IH Hs), (Hp c Hc).
Qed.

(** A text without white space at either end is its own [strip]. *)
Lemma strip_fixed s :
  strip s = s -> lstrip s = s /\ rstrip s = s.
Proof.
  intros Hs. pose proof (lstrip_strip s) as Hl. rewrite Hs in Hl.
  split; [done|]. unfold strip in Hs. by rewrite Hl in Hs.
Qed.

Lemma rstrip_append w s :
  rstrip s = s -> s <> "" -> rstrip (w +:+ s) = w +:+ s.
Proof.
  intros Hs Hne. induction w as [|c w IH]; [exact Hs|].
  change (String c w +:+ s) with (String c (w +:+ s)).
  cbn [rstrip]. rewrite IH. destruct (w +:+ s) eqn:Hw; [|done].
  destruct w; [done|discriminate].
Qed.

Lemma lower_append w s : lower (w +:+ s) = lower w +:+ lower s.
Proof.
  induction w as [|c w IH]; [done|].
  change (String c w +:+ s) with (String c (w +:+ s)).
  cbn [lower]. rewrite IH. done.
Qed.

Lemma word_append w s :
  all_chars (fun c => negb (is_space c)) w = true ->
  word (w +:+ String " " s) = (w, String " " s).
Proof.
  induction w as [|c w IH]; [done|].
  change (String c w +:+ String " " s) with (String c (w +:+ String " " s)).
  cbn [word all_chars].
  intros [Hc Hw]%andb_prop. apply negb_true_iff in Hc.
  by rewrite Hc, (IH Hw).
Qed.

Lemma lstrip_append w s :
  w <> "" -> all_chars (fun c => negb (is_space c)) w = true ->
  lstrip (w +:+ s) = w +:+ s.
Proof.
  destruct w as [|c w]; [done|].
  change (String c w +:+ s) with (String c (w +:+ s)). cbn [lstrip all_chars].
  intros _ [Hc _]%andb_prop. apply negb_true_iff in Hc. by rewrite Hc.
Qed.

Lemma all_chars_no_space_lower w :
  all_chars (fun c => negb (is_space c)) (lower w)
  = all_chars (fun c => negb (is_space c)) w.
Proof.
  induction w as [|c w IH]; [done|]. simpl.
  by rewrite is_space_lower_char, IH.
Qed.

Lemma split1_word_rest w r :
  w <> "" -> all_chars (fun c => negb (is_space c)) w = true ->
  lstrip r = r -> r <> "" ->
  split1 (w +:+ String " " r) = [w; r].
Proof.
  intros Hw Hns Hl Hr. unfold split1.
  rewrite lstrip_append by done.
  destruct (w +:+ String " " r) as [|c x] eqn:Hx;
    [by destruct w|].
  rewrite <- Hx, word_append by done.
  change (lstrip (String " " r)) with (lstrip r). rewrite Hl.
  by destruct r.
Qed.

(** A command word, a space and an argument are split into the two. *)
Lemma split1_command w d :
  w <> "" -> all_chars (fun c => negb (is_space c)) w = true ->
  strip d = d -> d <> "" ->
  split1 (lower (strip (w +:+ String " " d))) = [lower w; lower d].
Proof.
  intros Hw Hns [Hl Hr]%strip_fixed Hd.
  assert (strip (w +:+ String " " d) = w +:+ String " " d) as ->.
  { unfold strip. rewrite lstrip_append by done.
    apply rstrip_append; [|done].
    simpl. rewrite Hr. by destruct d. }
  rewrite lower_append. cbn [lower].
  change (lower_char " ") with " "%char.
  apply split1_word_rest.
  - by rewrite lower_empty.
  - by rewrite all_chars_no_space_lower.
  - by rewrite lstrip_lower, Hl.
  - by rewrite lower_empty.
Qed.

End typing.

(** X13. What is typed after [add] is what is stored, in lower case:
    for an ASCII text without white space at its ends, the line [add] +
    space + text makes the loop call [add_task] with the lower-case
    form of exactly that text, white space inside it included. *)
Theorem add_line_stores_typed_text (d : string) (now : Z) (st : Store) :
  is_ascii d -> strip d = d -> d <> "" ->
  main_iteration ("add " +:+ d) now st = invoke (add_task (lower d) now st).
Proof.
  intros _ Hs Hd. apply main_iteration_add.
  change ("add " +:+ d) with ("add" +:+ String " " d).
  by rewrite split1_command.
Qed.

Lemma add_line_stores_typed_text_witness :
  is_ascii "Buy  2 l Milk" /\
  strip "Buy  2 l Milk" = "Buy  2 l Milk" /\ "Buy  2 l Milk" <> "" /\
  main_iteration "add Buy  2 l Milk" 100 empty_db
  = (mkStore [mkTask 1 "buy  2 l milk" "pending" 100] 1,
     [TaskAdded "buy  2 l milk" 1], Continue).
Proof.
  assert (is_ascii "Buy  2 l Milk") as H0 by reflexivity.
  assert (strip "Buy  2 l Milk" = "Buy  2 l Milk") as H1 by reflexivity.
  assert ("Buy  2 l Milk" <> "") as H2 by discriminate.
  split; [exact H0|]. split; [exact H1|]. split; [exact H2|].
  change "add Buy  2 l Milk" with ("add " +:+ "Buy  2 l Milk").
  rewrite (add_line_stores_typed_text "Buy  2 l Milk" 100 empty_db H0 H1 H2).
  reflexivity.
Defined.

Section decimal.
Implicit Types (s : string) (c : ascii) (x : N) (n : Z).

Lemma digit_pretty_N_char x :
  (x < 10)%N -> digit (pretty_N_char x) = Some (Z.of_N x).
Proof.
  intros Hx.
  assert (x = 0 \/ x = 1 \/ x = 2 \/ x = 3 \/ x = 4 \/ x = 5 \/ x = 6
          \/ x = 7 \/ x = 8 \/ x = 9)%N as Hc by lia.
  repeat destruct Hc as [->|Hc]; try reflexivity. by subst.
Qed.

Lemma is_digit_not_space c : is_digit c = true -> is_space c = false.
Proof. destruct c as [[] [] [] [] [] [] [] []]; by compute. Qed.

Lemma is_digit_lower c : is_digit c = true -> lower_char c = c.
Proof. destruct c as [[] [] [] [] [] [] [] []]; by compute. Qed.

Lemma is_digit_no_sign c :
  is_digit c = true -> c <> "-"%char /\ c <> "+"%char.
Proof. intros Hc. split; intros ->; by compute in Hc. Qed.

Lemma pretty_N_go_digits x s :
  all_chars is_digit s = true -> all_chars is_digit (pretty_N_go x s) = true.
Proof.
  revert s. induction (N.lt_wf_0 x) as [x _ IH]; intros s Hs.
  destruct (decide (x = 0)%N) as [->|Hx]; [by rewrite pretty_N_go_0|].
  rewrite pretty_N_go_step by lia. apply IH; [apply N.div_lt; lia|].
  simpl. rewrite Hs, andb_true_r. unfold is_digit.
  rewrite digit_pretty_N_char; [done|]. apply N.mod_lt. lia.
Qed.

Lemma pretty_N_go_nonempty x s : s <> "" -> pretty_N_go x s <> "".
Proof.
  revert s. induction (N.lt_wf_0 x) as [x _ IH]; intros s Hs.
  destruct (decide (x = 0)%N) as [->|Hx]; [by rewrite pretty_N_go_0|].
  rewrite pretty_N_go_step by lia. apply IH; [apply N.div_lt; lia|done].
Qed.

(** Reading the digits of [x] in front of [s] shifts what was read so
    far and adds [x]. *)
Lemma digits_pretty_N_go x :
  exists k, forall s acc,
    digits (pretty_N_go x s) acc = digits s (acc * k + Z.of_N x).
Proof.
  induction (N.lt_wf_0 x) as [x _ IH].
  destruct (decide (x = 0)%N) as [->|Hx].
  { exists 1. intros s acc. rewrite pretty_N_go_0. f_equal. lia. }
  destruct (IH (x `div` 10)%N) as [k Hk]; [apply N.div_lt; lia|].
  exists (10 * k). intros s acc.
  rewrite pretty_N_go_step, Hk by lia. cbn [digits].
  rewrite digit_pretty_N_char by (apply N.mod_lt; lia).
  f_equal. pose proof (N.div_mod' x 10). lia.
Qed.

Lemma is_digit_not_c_space c : is_digit c = true -> is_c_space c = false.
Proof. destruct c as [[] [] [] [] [] [] [] []]; by compute. Qed.

Lemma all_chars_lskip p s :
  (forall c, p c = true -> is_c_space c = false) ->
  all_chars p s = true -> lskip s = s.
Proof.
  intros Hp. destruct s as [|c s]; [done|]. simpl.
  intros [Hc _]%andb_prop. by rewrite (Hp c Hc).
Qed.

Lemma all_chars_rskip p s :
  (forall c, p c = true -> is_c_space c = false) ->
  all_chars p s = true -> rskip s = s.
Proof.
  intros Hp. induction s as [|c s IH]; [done|]. simpl.
  intros [Hc Hs]%andb_prop. rewrite (IH Hs), (Hp c Hc). by destruct s.
Qed.

(** Digits only, 4300 at most: [int] reads them as [digits] does from
    0. *)
Lemma int_digits s :
  s <> "" -> all_chars is_digit s = true ->
  digit_count s <= MAX_STR_DIGITS -> int s = digits s 0.
Proof.
  intros Hne Hs Hn. unfold int.
  rewrite (all_chars_lskip is_digit), (all_chars_rskip is_digit)
    by auto using is_digit_not_c_space.
  rewrite decide_True by done.
  destruct s as [|c s]; [done|].
  cbn [all_chars] in Hs. apply andb_prop in Hs as [Hc _].
  destruct (is_digit_no_sign c Hc) as [Hm Hp].
  rewrite !decide_False by done. unfold unsigned. cbn [digits].
  unfold is_digit in Hc. destruct (digit c) as [d|]; [|done].
  f_equal; lia.
Qed.

Lemma int_minus_digits s :
  s <> "" -> all_chars is_digit s = true ->
  digit_count s <= MAX_STR_DIGITS ->
  int (String "-" s) = Z.opp <$> digits s 0.
Proof.
  intros Hne Hs Hn. unfold int. cbn [lskip].
  change (is_c_space "-") with false. cbn [rskip].
  rewrite (all_chars_rskip is_digit) by auto using is_digit_not_c_space.
  destruct s as [|c s]; [done|].
  assert (digit_count (String "-" (String c s)) = digit_count (String c s))
    as -> by done.
  rewrite decide_True by done. rewrite decide_True by done.
  cbn [all_chars] in Hs. apply andb_prop in Hs as [Hc _].
  unfold unsigned. cbn [digits].
  unfold is_digit in Hc. destruct (digit c) as [d|]; [|done].
  do 2 f_equal; lia.
Qed.

(** A number below 10^k is written with k digits at most. *)
Lemma digit_count_pretty_N_go (k : nat) x s :
  (x < 10 ^ N.of_nat k)%N ->
  digit_count (pretty_N_go x s) <= Z.of_nat k + digit_count s.
Proof.
  revert x s. induction k as [|k IH]; intros x s Hx.
  - assert (x = 0%N) as -> by (simpl in Hx; lia).
    rewrite pretty_N_go_0. lia.
  - destruct (decide (x = 0)%N) as [->|Hx0];
      [rewrite pretty_N_go_0; lia|].
    rewrite pretty_N_go_step by lia.
    assert (x `div` 10 < 10 ^ N.of_nat k)%N as Hdiv.
    { apply N.Div0.div_lt_upper_bound.
      rewrite Nat2N.inj_succ, N.pow_succ_r' in Hx. lia. }
    etrans; [apply (IH _ _ Hdiv)|]. cbn [digit_count].
    rewrite digit_pretty_N_char by (apply N.mod_lt; lia). lia.
Qed.

Lemma str_positive (p : positive) :
  str (Z.pos p) = pretty_N_go (N.pos p) "" /\
  all_chars is_digit (str (Z.pos p)) = true /\ str (Z.pos p) <> "" /\
  digits (str (Z.pos p)) 0 = Some (Z.pos p).
Proof.
  assert (str (Z.pos p) = pretty_N_go (N.pos p) "") as -> by done.
  split; [done|]. split; [by apply pretty_N_go_digits|].
  split.
  - rewrite pretty_N_go_step by lia. by apply pretty_N_go_nonempty.
  - destruct (digits_pretty_N_go (N.pos p)) as [k ->]. simpl. f_equal; lia.
Qed.

Lemma str_positive_count (p : positive) :
  Z.pos p < 10 ^ MAX_STR_DIGITS ->
  digit_count (str (Z.pos p)) <= MAX_STR_DIGITS.
Proof.
  intros Hp. destruct (str_positive p) as (-> & _).
  pose proof (digit_count_pretty_N_go 4300 (N.pos p) "") as H.
  cbn [digit_count] in H. unfold MAX_STR_DIGITS in *.
  rewrite Z.add_0_r in H. etrans; [apply H|done].
  apply N2Z.inj_lt. rewrite N2Z.inj_pow. exact Hp.
Qed.

Lemma int_str n : Z.abs n < 10 ^ MAX_STR_DIGITS -> int (str n) = Some n.
Proof.
  intros Hn. destruct n as [|p|p].
  - reflexivity.
  - destruct (str_positive p) as (_ & Hd & Hne & Hv).
    rewrite int_digits; try done. by apply str_positive_count.
  - destruct (str_positive p) as (Hs & Hd & Hne & Hv).
    change (str (Z.neg p)) with (String "-" (str (Z.pos p))).
    rewrite int_minus_digits; try done; [by rewrite Hv|].
    by apply str_positive_count.
Qed.

(** The text of an id has no white space and no upper-case letter. *)
Lemma str_plain n : strip (str n) = str n /\ lower (str n) = str n /\ str n <> "".
Proof.
  assert (forall s, all_chars is_digit s = true ->
            strip s = s /\ lower s = s) as Hplain.
  { intros s Hs. split.
    - apply (all_chars_strip is_digit); auto using is_digit_not_space.
    - apply (all_chars_lower is_digit); auto using is_digit_lower. }
  destruct n as [|p|p].
  - by compute.
  - destruct (str_positive p) as (_ & Hd & Hne & _).
    destruct (Hplain _ Hd). done.
  - destruct (str_positive p) as (_ & Hd & Hne & _).
    destruct (Hplain _ Hd) as [Hst Hlo].
    change (str (Z.neg p)) with (String "-" (str (Z.pos p))).
    apply strip_fixed in Hst as [Hl Hr].
    split; [|split; [|done]].
    + unfold strip. cbn [lstrip]. change (is_space "-") with false.
      cbn [rstrip]. rewrite Hr. by destruct (str (Z.pos p)).
    + cbn [lower]. by rewrite Hlo.
Qed.

End decimal.

(** X14. An id can be typed back as the messages show it: for every
    integer written with at most 4300 digits, every row id among them,
    [int] reads its decimal text as that integer, and the lines
    [delete], [complete] and [pending] followed by a space and that
    text make the loop call [delete_task] and [update_task_status] with
    that id. *)
Theorem printed_id_reads_back (i now : Z) (st : Store) :
  Z.abs i < 10 ^ MAX_STR_DIGITS ->
  int (str i) = Some i /\
  main_iteration ("delete " +:+ str i) now st = invoke (delete_task i st) /\
  main_iteration ("complete " +:+ str i) now st
  = invoke (update_task_status i "completed" st) /\
  main_iteration ("pending " +:+ str i) now st
  = invoke (update_task_status i "pending" st).
Proof.
  intros Hi. destruct (str_plain i) as (Hs & Hl & Hne).
  split; [by apply int_str|].
  assert (forall command : string,
            command <> "" ->
            all_chars (fun c => negb (is_space c)) command = true ->
            lower command = command -> takes_id command ->
            main_iteration (command +:+ String " " (str i)) now st
            = invoke (if decide (command = "delete") then delete_task i st
                      else update_task_status i
                             (if decide (command = "complete")
                              then "completed" else "pending") st)) as H.
  { intros command Hc Hns Hlc Hid.
    apply (main_iteration_id _ _ _ command (str i)); [|done|by apply int_str].
    by rewrite split1_command, Hlc, Hl. }
  split; [|split].
  - apply (H "delete"); try done. right; by right.
  - apply (H "complete"); try done. by left.
  - apply (H "pending"); try done. right; by left.
Qed.

Lemma printed_id_reads_back_witness :
  Z.abs (-9223372036854775808) < 10 ^ MAX_STR_DIGITS /\
  str (-9223372036854775808) = "-9223372036854775808" /\
  int "-9223372036854775808" = Some (-9223372036854775808).
Proof.
  assert (Z.abs (-9223372036854775808) < 10 ^ MAX_STR_DIGITS) as H
    by by_decide.
  split; [exact H|]. split; [reflexivity|].
  exact (proj1 (printed_id_reads_back (-9223372036854775808) 0 empty_db H)).
Defined.

(** ** The listing and the additions *)

Section additions_ledger.
Implicit Types (st : Store) (cs : list Call) (c : Call) (t : Task).

Lemma additions_snoc cs c st :
  additions (cs ++ [c]) st = additions cs st ++ added_row c (calls cs st).1.
Proof.
  revert st. induction cs as [|c0 cs IH]; intros st; simpl.
  - by rewrite app_nil_r.
  - rewrite IH, calls_cons. cbn [fst]. by rewrite app_assoc.
Qed.

Lemma added_row_ids c st :
  id <$> added_row c st = added_ids (printed (call c st)).
Proof.
  destruct c as [d now|f|i s|i]; simpl.
  - destruct (decide (next_rowid st <= MAX_ROWID)) as [Hr|Hr];
      [by rewrite add_task_ok|by rewrite add_task_full].
  - unfold view_tasks. destruct (fetch_tasks f st); [|done].
    by destruct (filter_given f).
  - destruct (decide (valid_status s)) as [Hv|Hv];
      [|by rewrite update_task_status_invalid].
    destruct (decide (fits_int64 i)) as [Hi|Hi];
      [|by rewrite update_task_status_overflow].
    destruct (decide (i ∈ ids st)) as [Hin|Hnin];
      [by rewrite update_task_status_found
      |by rewrite update_task_status_missing].
  - destruct (decide (fits_int64 i)) as [Hi|Hi];
      [|by rewrite delete_task_overflow].
    destruct (decide (i ∈ ids st)) as [Hin|Hnin];
      [by rewrite delete_task_found|by rewrite delete_task_missing].
Qed.

(** A row after a call is a row from before, with its id, description
    and creation time, or the row the call has added. *)
Lemma added_row_origin c st t :
  t ∈ rows (db (call c st)) ->
  exists a, (a ∈ rows st \/ a ∈ added_row c st) /\ id a = id t /\
            description a = description t /\ created_at a = created_at t.
Proof.
  destruct c as [d now|f|i s|i]; simpl.
  - destruct (decide (next_rowid st <= MAX_ROWID)) as [Hr|Hr].
    + rewrite add_task_ok by done. simpl.
      intros [Ht| ->%list_elem_of_singleton]%elem_of_app.
      * exists t. auto.
      * eexists. split; [right; left|done].
    + rewrite add_task_full by done. simpl. intros Ht. exists t. auto.
  - rewrite view_tasks_db. intros Ht. exists t. auto.
  - destruct (decide (valid_status s)) as [Hs|Hs];
      [|rewrite update_task_status_invalid by done; intros; exists t; auto].
    destruct (decide (fits_int64 i)) as [Hi|Hi];
      [|rewrite update_task_status_overflow by done; intros; exists t; auto].
    rewrite db_update_task_status by done.
    intros (u & Hu & ->)%elem_of_update_status. exists u.
    split; [by left|]. by destruct (decide (id u = i)).
  - destruct (decide (fits_int64 i)) as [Hi|Hi];
      [|rewrite delete_task_overflow by done; intros; exists t; auto].
    rewrite db_delete_task by done. simpl.
    intros [_ Ht]%list_elem_of_filter. exists t. auto.
Qed.

(** Every row of the table goes back to one addition of the history. *)
Lemma rows_from_additions cs t :
  t ∈ rows (calls cs empty_db).1 ->
  exists a, a ∈ additions cs empty_db /\ id a = id t /\
            description a = description t /\ created_at a = created_at t.
Proof.
  revert t. induction cs as [|c cs IH] using rev_ind; intros t.
  { by intros ?%elem_of_nil. }
  rewrite calls_snoc, additions_snoc. cbn [fst].
  intros (a & [Ha|Ha] & Hi & Hd & Hc)%added_row_origin.
  - destruct (IH a Ha) as (b & Hb & Hbi & Hbd & Hbc).
    exists b. split; [apply elem_of_app; by left|]. by rewrite Hbi, Hbd, Hbc.
  - exists a. split; [apply elem_of_app; by right|done].
Qed.

Lemma additions_ids cs :
  id <$> additions cs empty_db = added_ids (calls cs empty_db).2.
Proof.
  induction cs as [|c cs IH] using rev_ind; [done|].
  rewrite calls_snoc, additions_snoc, fmap_app, IH, added_row_ids.
  cbn [snd]. unfold added_ids. by rewrite omap_app.
Qed.

End additions_ledger.

(** C3, amended. After any sequence of calls on a table that starts
    empty, the unfiltered listing holds exactly the rows of the table,
    one for each id reported as added and not reported as deleted.
    The additions of the history have the ids reported, each once, and
    every listed row has the id, the description and the time of one
    of them: the description and creation time of its own add.  The
    listing is ordered by [created_at] from newest to oldest, rows of
    one second in any order. *)
Theorem listTasks_all_newest_first (cs : list Call) :
  let st := (calls cs empty_db).1 in
  let out := (calls cs empty_db).2 in
  let l := fetch_tasks None st in
  l ≡ₚ rows st /\
  NoDup (id <$> l) /\
  (forall i, i ∈ id <$> l <-> i ∈ added_ids out /\ i ∉ deleted_ids out) /\
  id <$> additions cs empty_db = added_ids out /\
  StronglySorted Z.lt (id <$> additions cs empty_db) /\
  (forall t, t ∈ l ->
     exists a, a ∈ additions cs empty_db /\ id a = id t /\
               description a = description t /\
               created_at a = created_at t) /\
  (forall t, t ∈ l ->
     TaskAdded (description t) (id t) ∈ out /\
     AddTask (description t) (created_at t) ∈ cs) /\
  newest_first l.
Proof.
  intros st out l. pose proof (history_inv_calls cs) as H.
  assert (l ≡ₚ rows st) as Hp by apply order_by_perm.
  assert (id <$> l ≡ₚ ids st) as Hids by by apply fmap_Permutation.
  split; [done|].
  split; [rewrite Hids; apply (inv_nodup _ _ _ H)|].
  split; [intros i; rewrite Hids; apply (inv_live _ _ _ H)|].
  split; [apply additions_ids|].
  split; [rewrite additions_ids; apply (inv_increasing _ _ _ H)|].
  split; [intros t Ht; rewrite Hp in Ht; by apply rows_from_additions|].
  split; [|apply order_by_sorted].
  intros t Ht. rewrite Hp in Ht.
  split; [by apply (inv_reported _ _ _ H)|by apply (inv_created _ _ _ H)].
Qed.

Lemma listTasks_all_newest_first_witness :
  let cs := [AddTask "a" 100; AddTask "a" 100; AddTask "a" 160; DeleteTask 2;
             UpdateTaskStatus 1 "completed"] in
  fetch_tasks None (calls cs empty_db).1
  = [mkTask 3 "a" "pending" 160; mkTask 1 "a" "completed" 100] /\
  additions cs empty_db
  = [mkTask 1 "a" "pending" 100; mkTask 2 "a" "pending" 100;
     mkTask 3 "a" "pending" 160] /\
  newest_first (fetch_tasks None (calls cs empty_db).1).
Proof.
  intros cs. split; [reflexivity|]. split; [reflexivity|].
  exact (proj2 (proj2 (proj2 (proj2 (proj2 (proj2 (proj2
           (listTasks_all_newest_first cs)))))))).
Defined.
